(** * Varnan: the transliteration formatter and the conversion views

    A shallow embedding of [transliteration/formatters.py] and of the
    conversion logic of [transliteration/views.py], with the properties of
    the script-aware normalisation pipeline stated over it.

    Python text ([str]) is a sequence of Unicode code points: a [list Z].
    Language tags, script codes and dictionary keys of the views, which the
    code only compares and looks up, are [string]s. *)

From Stdlib Require Import ZArith List Bool String Ascii Lia.
Import ListNotations.
Local Open Scope Z_scope.

(** ** Python's [str] built-ins *)

Module Py.

Definition char := Z.
Definition str := list char.

(** Source literals are UTF-8 text; [u "..."] is the [str] they denote. *)
Fixpoint utf8_decode (bs : list Z) : str :=
  match bs with
  | [] => []
  | b0 :: r0 =>
    if b0 <? 0x80 then b0 :: utf8_decode r0
    else match r0 with
    | [] => []
    | b1 :: r1 =>
      if b0 <? 0xE0 then ((b0 - 0xC0) * 64 + (b1 - 0x80)) :: utf8_decode r1
      else match r1 with
      | [] => []
      | b2 :: r2 =>
        if b0 <? 0xF0
        then ((b0 - 0xE0) * 4096 + (b1 - 0x80) * 64 + (b2 - 0x80))
               :: utf8_decode r2
        else match r2 with
        | [] => []
        | b3 :: r3 =>
          ((b0 - 0xF0) * 262144 + (b1 - 0x80) * 4096
             + (b2 - 0x80) * 64 + (b3 - 0x80)) :: utf8_decode r3
        end
      end
    end
  end.

Definition u (s : string) : str :=
  utf8_decode (map (fun a => Z.of_nat (nat_of_ascii a)) (list_ascii_of_string s)).

Arguments u s%_string.

Definition in_range (lo hi c : char) : bool := (lo <=? c) && (c <=? hi).

(** The per-code-point properties CPython reads from its Unicode database.
    On ASCII they are written out below; beyond ASCII they are the fields
    of this record. *)
Record ucd := {
  x_lower : char -> str;            (* full lowercase mapping *)
  x_title : char -> str;            (* full titlecase mapping *)
  x_isupper : char -> bool;         (* property Uppercase *)
  x_islower : char -> bool;         (* property Lowercase *)
  x_istitle : char -> bool;         (* category Lt *)
  x_iscased : char -> bool;         (* property Cased *)
  x_iscase_ignorable : char -> bool;
  x_isalpha : char -> bool;         (* categories Lm Lt Lu Ll Lo *)
  x_isalnum : char -> bool;         (* alpha, decimal, digit or numeric *)
  x_isspace : char -> bool
}.

Definition is_ascii (c : char) : bool := c <? 128.
Definition ascii_upper_letter (c : char) : bool := in_range 65 90 c.
Definition ascii_lower_letter (c : char) : bool := in_range 97 122 c.
Definition ascii_digit (c : char) : bool := in_range 48 57 c.

Section Unicode.
Variable U : ucd.

Definition c_isupper (c : char) : bool :=
  if is_ascii c then ascii_upper_letter c else x_isupper U c.
Definition c_islower (c : char) : bool :=
  if is_ascii c then ascii_lower_letter c else x_islower U c.
Definition c_istitle (c : char) : bool :=
  if is_ascii c then false else x_istitle U c.
Definition c_iscased (c : char) : bool :=
  if is_ascii c then ascii_upper_letter c || ascii_lower_letter c
  else x_iscased U c.
(* ASCII code points with Case_Ignorable: ' . : ^ ` *)
Definition c_iscase_ignorable (c : char) : bool :=
  if is_ascii c
  then (c =? 39) || (c =? 46) || (c =? 58) || (c =? 94) || (c =? 96)
  else x_iscase_ignorable U c.
Definition c_isalpha (c : char) : bool :=
  if is_ascii c then ascii_upper_letter c || ascii_lower_letter c
  else x_isalpha U c.
Definition c_isalnum (c : char) : bool :=
  if is_ascii c
  then ascii_upper_letter c || ascii_lower_letter c || ascii_digit c
  else x_isalnum U c.
(* ASCII whitespace: \t \n \v \f \r, the separators 0x1C-0x1F, space *)
Definition c_isspace (c : char) : bool :=
  if is_ascii c then in_range 9 13 c || in_range 28 32 c
  else x_isspace U c.
Definition c_lower (c : char) : str :=
  if is_ascii c then [if ascii_upper_letter c then c + 32 else c]
  else x_lower U c.
Definition c_title (c : char) : str :=
  if is_ascii c then [if ascii_lower_letter c then c - 32 else c]
  else x_title U c.

(** [str.lower()]: code point by code point, except capital sigma
    (U+03A3), which lowers to the final form U+03C2 when it follows a
    cased letter and no cased letter follows, case-ignorable code points
    being skipped on both sides. *)
Fixpoint skip_ignorable (s : str) : option char :=
  match s with
  | [] => None
  | c :: r => if c_iscase_ignorable c then skip_ignorable r else Some c
  end.

Definition final_sigma (before_rev after : str) : bool :=
  match skip_ignorable before_rev with
  | None => false
  | Some c =>
    c_iscased c &&
    match skip_ignorable after with
    | None => true
    | Some d => negb (c_iscased d)
    end
  end.

Definition lower_at (before_rev : str) (c : char) (after : str) : str :=
  if c =? 0x3A3
  then [if final_sigma before_rev after then 0x3C2 else 0x3C3]
  else c_lower c.

Fixpoint do_lower (before_rev s : str) : str :=
  match s with
  | [] => []
  | c :: r => lower_at before_rev c r ++ do_lower (c :: before_rev) r
  end.

Definition lower (s : str) : str := do_lower [] s.

(** [str.title()]: a code point is title-cased when the one before it is
    not cased, lowered otherwise. *)
Fixpoint do_title (previous_is_cased : bool) (before_rev s : str) : str :=
  match s with
  | [] => []
  | c :: r =>
    (if previous_is_cased then lower_at before_rev c r else c_title c)
      ++ do_title (c_iscased c) (c :: before_rev) r
  end.

Definition title (s : str) : str := do_title false [] s.

(** [str.isupper()] and [str.islower()]: no code point of the other case
    (or title case) and at least one of this case; a string of one code
    point is decided by that code point's own property. *)
Definition isupper (s : str) : bool :=
  match s with
  | [c] => c_isupper c
  | _ => forallb (fun c => negb (c_islower c || c_istitle c)) s
         && existsb c_isupper s
  end.

Definition islower (s : str) : bool :=
  match s with
  | [c] => c_islower c
  | _ => forallb (fun c => negb (c_isupper c || c_istitle c)) s
         && existsb c_islower s
  end.

(** [str.isalpha()] *)
Definition isalpha (s : str) : bool :=
  match s with
  | [] => false
  | _ => forallb c_isalpha s
  end.

(** [str.split()] without arguments: the maximal runs of code points
    that are not whitespace. [w] is the run being read. *)
Fixpoint split_from (w s : str) : list str :=
  match s with
  | [] => match w with [] => [] | _ => [w] end
  | c :: r =>
    if c_isspace c
    then match w with [] => split_from [] r | _ => w :: split_from [] r end
    else split_from (w ++ [c]) r
  end.

Definition split (s : str) : list str := split_from [] s.

(** No code point of [w] is whitespace. *)
Definition no_space (w : str) : bool :=
  forallb (fun c => negb (c_isspace c)) w.

(** A code point that is not whitespace. *)
Definition not_space (c : char) : bool := negb (c_isspace c).
End Unicode.

(** [sep.join(l)] *)
Fixpoint join (sep : str) (l : list str) : str :=
  match l with
  | [] => []
  | [w] => w
  | w :: r => w ++ sep ++ join sep r
  end.

(** [s.startswith(p)] *)
Fixpoint startswith (s p : str) : bool :=
  match p, s with
  | [], _ => true
  | _ :: _, [] => false
  | a :: p', b :: s' => (a =? b) && startswith s' p'
  end.

(** [sub in s] *)
Fixpoint contains (s sub : str) : bool :=
  startswith s sub ||
  match s with
  | [] => false
  | _ :: r => contains r sub
  end.

(** [s.replace(old, new)]: the occurrences of [old] found from left to
    right, without overlap, become [new]. [skip] counts the code points of
    a found occurrence that are still to be dropped. *)
Fixpoint replace_from (old new : str) (skip : nat) (s : str) : str :=
  match s with
  | [] => []
  | c :: r =>
    match skip with
    | S k => replace_from old new k r
    | O =>
      if startswith s old
      then new ++ replace_from old new (Nat.pred (List.length old)) r
      else c :: replace_from old new O r
    end
  end.

Definition replace (s old new : str) : str :=
  match old with
  | [] => new ++ flat_map (fun c => c :: new) s
  | _ :: _ => replace_from old new O s
  end.

(** A [dict] keeps its keys in insertion order. *)
Definition dict (K V : Type) := list (K * V).

Fixpoint dict_set {V : Type} (d : dict string V) (k : string) (v : V)
  : dict string V :=
  match d with
  | [] => [(k, v)]
  | (k', v') :: r =>
    if String.eqb k' k then (k', v) :: r else (k', v') :: dict_set r k v
  end.

Fixpoint dict_get {V : Type} (d : dict string V) (k : string) (default : V)
  : V :=
  match d with
  | [] => default
  | (k', v') :: r => if String.eqb k' k then v' else dict_get r k default
  end.

(** [a == b] on [str] *)
Fixpoint str_eqb (a b : str) : bool :=
  match a, b with
  | [], [] => true
  | x :: a', y :: b' => (x =? y) && str_eqb a' b'
  | _, _ => false
  end.

(** [d[k] = v] on a dict whose keys are [str] *)
Fixpoint str_dict_set {V : Type} (d : dict str V) (k : str) (v : V)
  : dict str V :=
  match d with
  | [] => [(k, v)]
  | (k', v') :: r =>
    if str_eqb k' k then (k', v) :: r else (k', v') :: str_dict_set r k v
  end.

(** Exceptions: a computation returns a value or raises. *)
Inductive exn := IndexError | ConversionError | DetectionError.

Inductive exc (A : Type) :=
| Ok (a : A)
| Raise (e : exn).
Arguments Ok {A} a.
Arguments Raise {A} e.

Definition bind {A B : Type} (m : exc A) (k : A -> exc B) : exc B :=
  match m with
  | Ok a => k a
  | Raise e => Raise e
  end.

(** [try: m  except Exception: h] *)
Definition try_except {A : Type} (m : exc A) (h : exn -> exc A) : exc A :=
  match m with
  | Ok a => Ok a
  | Raise e => h e
  end.

Fixpoint mapM {A B : Type} (f : A -> exc B) (l : list A) : exc (list B) :=
  match l with
  | [] => Ok []
  | a :: r =>
    bind (f a) (fun b => bind (mapM f r) (fun bs => Ok (b :: bs)))
  end.

End Py.

Declare Scope py_scope.
Notation "x <- m ;; k" := (Py.bind m (fun x => k))
  (at level 61, m at next level, right associativity) : py_scope.

(** ** [transliteration/formatters.py] *)

Module Formatters.
Import Py.
Local Open Scope py_scope.

(** The attributes [TransliterationFormatter.__init__] sets. *)
Record TransliterationFormatter := {
  character_replacements : dict str str;
  vowel_length_mappings : dict str str;
  word_corrections : dict str str;
  english_to_indian_corrections : dict str str
}.

(** The global instance [formatter = TransliterationFormatter()]. *)
Definition formatter : TransliterationFormatter := {|
  character_replacements := [
    (u "ò", u "o"); (u "ḻ", u "l"); (u "ṅ", u "ng"); (u "ṇ", u "n");
    (u "ṭ", u "t"); (u "ḍ", u "d"); (u "ṣ", u "sh"); (u "ṃ", u "m");
    (u "ḥ", u "h"); (u "ṁ", u "m");
    (u "ḷ", u "l"); (u "ṛ", u "r"); (u "ṝ", u "r");
    (u "I", u "i"); (u "A", u "a"); (u "U", u "u"); (u "E", u "e");
    (u "O", u "o") ];
  vowel_length_mappings := [
    (u "ī", u "ee"); (u "ā", u "aa"); (u "ū", u "uu"); (u "ē", u "ee");
    (u "ō", u "oo"); (u "ṛ", u "ri"); (u "ṝ", u "ri") ];
  word_corrections := [
    (u "dIpòvaLi", u "Deepavali"); (u "dīpòvaḻi", u "Deepavali");
    (u "dIpAvalI", u "Deepavali"); (u "dīpāvalī", u "Deepavali");
    (u "dIpAvaLi", u "Deepavali"); (u "dīpāvaḻi", u "Deepavali");
    (u "avItAlat", u "Aveetalat"); (u "avītālat", u "Aveetalat");
    (u "dipavaLi", u "Deepavali") ];
  english_to_indian_corrections := [
    (u "Changes", u "चेंजेस"); (u "Bhatta", u "भट्टा"); (u "Fall", u "फॉल");
    (u "Hello", u "हेलो"); (u "India", u "इंडिया"); (u "Welcome", u "वेलकम") ]
|}.

(** The Unicode blocks [_clean_indian_script] names. *)
Definition devanagari_range : char -> bool := in_range 0x0900 0x097f.
Definition telugu_range : char -> bool := in_range 0x0c00 0x0c7f.
Definition tamil_range : char -> bool := in_range 0x0b80 0x0bff.
Definition kannada_range : char -> bool := in_range 0x0c80 0x0cff.
Definition malayalam_range : char -> bool := in_range 0x0d00 0x0d7f.
Definition gujarati_range : char -> bool := in_range 0x0a80 0x0aff.
Definition bengali_range : char -> bool := in_range 0x0980 0x09ff.
Definition punjabi_range : char -> bool := in_range 0x0a00 0x0a7f.

(** The combined pattern [indian_scripts] of [_clean_indian_script]. *)
Definition indian_scripts (c : char) : bool :=
  devanagari_range c || telugu_range c || tamil_range c || kannada_range c
  || malayalam_range c || gujarati_range c || bengali_range c
  || punjabi_range c.

(** The character class [[A-Z]]. *)
Definition A_Z (c : char) : bool := in_range 65 90 c.

(** [\w] of a Unicode pattern: alphanumeric or underscore; beyond either
    end of the text there is no word character. *)
Definition word_char (U : ucd) (c : option char) : bool :=
  match c with
  | None => false
  | Some c => c_isalnum U c || (c =? 95)
  end.

Section WithUnicode.
Variable U : ucd.

(** [re.sub('([A-Z])(indian_scripts)', g1.lower() + g2, text)]: group 1
    is the capital [a], group 2 the Indic code point [b]. *)
Fixpoint sub_capital_before (text : str) : str :=
  match text with
  | [] => []
  | a :: t =>
    match t with
    | b :: r =>
      if A_Z a && indian_scripts b
      then lower U [a] ++ [b] ++ sub_capital_before r
      else a :: sub_capital_before t
    | [] => [a]
    end
  end.

(** [re.sub('(indian_scripts)([A-Z])', g1 + g2.lower(), cleaned)]: as
    [indian_scripts] is itself a group, groups 1 and 2 are both the Indic
    code point [a] and the capital [b] is group 3, which the replacement
    does not use. *)
Fixpoint sub_capital_after (text : str) : str :=
  match text with
  | [] => []
  | a :: t =>
    match t with
    | b :: r =>
      if indian_scripts a && A_Z b
      then [a] ++ lower U [a] ++ sub_capital_after r
      else a :: sub_capital_after t
    | [] => [a]
    end
  end.

(** [re.sub('(indian_scripts)([A-Z])(indian_scripts)',
            g1 + g2.lower() + g3, cleaned)]: groups 1 and 2 are both the
    first Indic code point [a], group 3 is the capital [b]; the second
    Indic code point [c] (groups 4 and 5) is not used by the replacement. *)
Fixpoint sub_capital_between (text : str) : str :=
  match text with
  | [] => []
  | a :: t =>
    match t with
    | b :: c :: r =>
      if indian_scripts a && A_Z b && indian_scripts c
      then [a] ++ lower U [a] ++ [b] ++ sub_capital_between r
      else a :: sub_capital_between t
    | _ => a :: sub_capital_between t
    end
  end.

(** [re.sub(r'\b[A-Z]\b', g0.lower(), cleaned)]; [prev] is the code point
    of the subject before the position read. *)
Fixpoint sub_standalone_capital (prev : option char) (text : str) : str :=
  match text with
  | [] => []
  | a :: t =>
    (if A_Z a && negb (word_char U prev) && negb (word_char U (hd_error t))
     then lower U [a] else [a])
      ++ sub_standalone_capital (Some a) t
  end.

Definition _clean_indian_script (text : str) : str :=
  let cleaned := sub_capital_before text in
  let cleaned := sub_capital_after cleaned in
  let cleaned := sub_capital_between cleaned in
  let cleaned := sub_standalone_capital None cleaned in
  cleaned.

(** One word of the loop of [_format_for_english]; [word[0]] raises
    [IndexError] on an empty word. *)
Definition format_word (word : str) : exc str :=
  if isupper U word then Ok word
  else
    w0 <- match word with [] => Raise IndexError | c :: _ => Ok [c] end ;;
    if isupper U w0 && islower U (tl word) then Ok word
    else if existsb (contains word) [u "aa"; u "ee"; u "ii"; u "oo"; u "uu"]
            || (4 <? Z.of_nat (List.length word))
            || islower U word
    then Ok (title U word)
    else Ok word.

Definition _format_for_english (self : TransliterationFormatter)
    (text : str) : exc str :=
  let text :=
    fold_left (fun text kv => replace text (fst kv) (snd kv))
              (vowel_length_mappings self) text in
  let words := split U text in
  formatted_words <- mapM format_word words ;;
  Ok (join (u " ") formatted_words).

(** The test that chooses the branch of [clean_transliteration]. *)
Definition is_indian_script (text : str) : bool :=
  existsb (in_range 0x0900 0x097f) text
  || existsb (in_range 0x0c00 0x0c7f) text
  || existsb (in_range 0x0b80 0x0bff) text
  || existsb (in_range 0x0c80 0x0cff) text
  || existsb (in_range 0x0a80 0x0aff) text.

Definition has_english_caps (cleaned_text : str) : bool :=
  existsb (fun c => isupper U [c] && isalpha U [c]) cleaned_text.

Definition has_indian_script (cleaned_text : str) : bool :=
  existsb (in_range 0x0900 0x097f) cleaned_text
  || existsb (in_range 0x0c00 0x0c7f) cleaned_text
  || existsb (in_range 0x0b80 0x0bff) cleaned_text.

(** One turn of the loop over [word_corrections.items()]. *)
Definition word_correction_step (cleaned_text : str) (kv : str * str)
  : str :=
  let (incorrect, correct) := kv in
  if contains (lower U cleaned_text) (lower U incorrect)
  then replace cleaned_text incorrect correct
  else cleaned_text.

(** One turn of the loop over [english_to_indian_corrections.items()]. *)
Definition english_to_indian_step (cleaned_text : str) (kv : str * str)
  : str :=
  let (english_word, indian_word) := kv in
  if contains cleaned_text english_word
  then replace cleaned_text english_word indian_word
  else cleaned_text.

Definition is_roman_target (target_script : string) : bool :=
  existsb (String.eqb target_script)
          ["roman"; "english"; "ITRANS"; "Latin"]%string
  || existsb (String.eqb target_script) ["ITRANS"; "Latin"]%string.

(** The text of the non-Indic branch after word corrections, the
    mixed-script substitutions and the character clean-up. *)
Definition clean_roman_text (self : TransliterationFormatter) (text : str)
  : str :=
  let cleaned_text := fold_left word_correction_step (word_corrections self) text in
  let cleaned_text :=
    if has_english_caps cleaned_text && has_indian_script cleaned_text
    then fold_left english_to_indian_step
                   (english_to_indian_corrections self) cleaned_text
    else cleaned_text in
  fold_left (fun text kv => replace text (fst kv) (snd kv))
            (character_replacements self) cleaned_text.

Definition clean_transliteration (self : TransliterationFormatter)
    (text : str) (target_script : string) : exc str :=
  match text with
  | [] => Ok text
  | _ =>
    cleaned_text <-
      (if is_indian_script text
       then Ok (_clean_indian_script text)
       else
         let cleaned_text := clean_roman_text self text in
         if is_roman_target target_script
         then _format_for_english self cleaned_text
         else Ok cleaned_text) ;;
    Ok (join (u " ") (split U cleaned_text))
  end.

(** The [target_script] the loop of [format_transliterations] determines
    from a script name. *)
Definition target_script_of (script_name : str) : string :=
  if existsb (fun keyword => contains (lower U script_name) keyword)
             [u "roman"; u "english"; u "itrans"; u "latin"]
  then "roman"%string
  else if contains (lower U script_name) (u "iast")
  then "iast"%string
  else "other"%string.

(** The loop over [transliterations.items()]. *)
Fixpoint format_loop (self : TransliterationFormatter)
    (formatted_transliterations : dict str str) (items : list (str * str))
  : exc (dict str str) :=
  match items with
  | [] => Ok formatted_transliterations
  | (script_name, text) :: rest =>
    let target_script := target_script_of script_name in
    formatted <- clean_transliteration self text target_script ;;
    format_loop self
                (str_dict_set formatted_transliterations script_name formatted)
                rest
  end.

Definition format_transliterations (self : TransliterationFormatter)
    (transliterations : dict str str) : exc (dict str str) :=
  format_loop self [] transliterations.

(** [char.lower() in 'aeiou'] *)
Definition is_vowel (c : char) : bool := contains (u "aeiou") (lower U [c]).

(** The loop of [_break_into_syllables] from [word[i]] on: the word still
    to read is [word[i:]], so that [i < len(word) - 1] holds when a code
    point follows. *)
Fixpoint break_loop (syllables : list str) (current_syllable word : str)
  : list str * str :=
  match word with
  | [] => (syllables, current_syllable)
  | c :: rest =>
    let current_syllable := (current_syllable ++ [c])%list in
    if match rest with
       | [] => false
       | next :: _ => is_vowel c && negb (is_vowel next)
       end
    then break_loop (syllables ++ [current_syllable])%list [] rest
    else break_loop syllables current_syllable rest
  end.

(** The list [syllables] that [_break_into_syllables] joins. *)
Definition syllables (word : str) : list str :=
  let (syllables, current_syllable) := break_loop [] [] word in
  match current_syllable with
  | [] => syllables
  | _ => (syllables ++ [current_syllable])%list
  end.

Definition _break_into_syllables (word : str) : str :=
  join (u "-") (syllables word).

Definition add_pronunciation_guide (text : str) (target_script : string)
  : dict string str :=
  let result := [("text"%string, text)] in
  if existsb (String.eqb target_script) ["roman"; "english"]%string
  then
    let pronunciation := lower U text in
    let pronunciation := replace pronunciation (u "aa") (u "aa (as in car)") in
    let pronunciation := replace pronunciation (u "ee") (u "ee (as in see)") in
    let pronunciation := replace pronunciation (u "ii") (u "ii (as in ski)") in
    let pronunciation := replace pronunciation (u "oo") (u "oo (as in too)") in
    let pronunciation := replace pronunciation (u "uu") (u "uu (as in blue)") in
    if (Z.of_nat (List.length (split U text)) =? 1)
       && (6 <? Z.of_nat (List.length text))
    then
      let syllables := _break_into_syllables text in
      dict_set result "pronunciation"
               (text ++ u " → " ++ syllables)%list
    else result
  else result.
End WithUnicode.

(** [t] is [s] with some capitals of [[A-Z]] turned into their small
    letter, every other code point kept in place. *)
Definition lowered (s t : str) : Prop :=
  Forall2 (fun a b => b = a \/ (A_Z a = true /\ b = a + 32)) s t.

(** [t] is [s] with some capitals of [[A-Z]] turned into their small
    letter or overwritten by an Indic code point, every other code point
    kept in place. *)
Definition repaired (s t : str) : Prop :=
  Forall2 (fun a b => b = a
                      \/ (A_Z a = true
                          /\ (b = a + 32 \/ indian_scripts b = true))) s t.

(** No two neighbours of [s] satisfy [P]. *)
Fixpoint no_neighbours (P : char -> char -> bool) (s : str) : Prop :=
  match s with
  | [] => True
  | a :: t =>
    match t with
    | [] => True
    | b :: _ => P a b = false /\ no_neighbours P t
    end
  end.

Definition capital_before (a b : char) : bool := A_Z a && indian_scripts b.
Definition capital_after (a b : char) : bool := indian_scripts a && A_Z b.

(** The formatter with another table of English words. *)
Definition with_english_to_indian (self : TransliterationFormatter)
    (table : dict str str) : TransliterationFormatter := {|
  character_replacements := character_replacements self;
  vowel_length_mappings := vowel_length_mappings self;
  word_corrections := word_corrections self;
  english_to_indian_corrections := table
|}.

(** The formatter with another table of vowel lengths. *)
Definition with_vowel_length_mappings (self : TransliterationFormatter)
    (table : dict str str) : TransliterationFormatter := {|
  character_replacements := character_replacements self;
  vowel_length_mappings := table;
  word_corrections := word_corrections self;
  english_to_indian_corrections := english_to_indian_corrections self
|}.

(** An ASCII code point that is not a capital of [[A-Z]]. *)
Definition plain (c : char) : bool := (c <? 128) && negb (A_Z c).

(** A small ASCII letter or the space. *)
Definition small_or_space (c : char) : bool :=
  ascii_lower_letter c || (c =? 32).

(** A word with its first code point moved 32 down: the capital, when
    it is a small ASCII letter. *)
Definition capitalized (w : str) : str :=
  match w with
  | [] => []
  | c :: r => (c - 32) :: r
  end.

(** A code point other than the hyphen. *)
Definition not_hyphen (c : char) : bool := negb (c =? 45).

End Formatters.

(** ** A Unicode table for concrete runs *)

Module Ucd.
Import Py.

(** The small Latin letters with diacritics of the formatter's tables. *)
Definition table_small (c : char) : bool :=
  existsb (Z.eqb c)
    [0xF2; 0x101; 0x113; 0x12B; 0x14D; 0x16B; 0x1E0D; 0x1E25; 0x1E37;
     0x1E3B; 0x1E41; 0x1E43; 0x1E45; 0x1E47; 0x1E5B; 0x1E5D; 0x1E63; 0x1E6D].

Definition to_capital (c : char) : char := if c =? 0xF2 then 0xD2 else c - 1.
Definition to_small (c : char) : char := if c =? 0xD2 then 0xF2 else c + 1.

(** The capitals of the letters above; U+00F1, one before U+00F2, is not
    one of them. *)
Definition table_capital (c : char) : bool :=
  negb (c =? 0xF1) && table_small (to_small c).

(** The whitespace beyond ASCII: U+0085, U+00A0, U+1680, U+2000 to
    U+200A, U+2028, U+2029, U+202F, U+205F and U+3000. *)
Definition table_space (c : char) : bool :=
  existsb (Z.eqb c) [0x85; 0xA0; 0x1680; 0x2028; 0x2029; 0x202F; 0x205F; 0x3000]
  || in_range 0x2000 0x200A c.

(** The Devanagari letters U+0904 to U+0939 and the Bengali consonants
    U+0995 to U+09A8. *)
Definition indic_letter (c : char) : bool :=
  in_range 0x904 0x939 c || in_range 0x995 0x9A8 c.

(** CPython's properties of ASCII (through [Py]), of the letters above,
    of their capitals and of the whitespace beyond ASCII; any other code
    point is left without a property and is its own lower and title
    case. *)
Definition table : ucd := {|
  x_lower := fun c => [if table_capital c then to_small c else c];
  x_title := fun c => [if table_small c then to_capital c else c];
  x_isupper := table_capital;
  x_islower := table_small;
  x_istitle := fun _ => false;
  x_iscased := fun c => table_small c || table_capital c;
  x_iscase_ignorable := fun _ => false;
  x_isalpha := fun c => table_small c || table_capital c || indic_letter c;
  x_isalnum := fun c => table_small c || table_capital c || indic_letter c;
  x_isspace := table_space
|}.

End Ucd.

(** ** [transliteration/views.py] *)

Module Views.
Import Py Formatters.
Local Open Scope py_scope.
Local Open Scope string_scope.

(** [language_to_script], the same literal in both views. *)
Definition language_to_script : dict string string := [
  ("hi", "Devanagari"); ("mr", "Devanagari"); ("ta", "Tamil");
  ("te", "Telugu"); ("kn", "Kannada"); ("ml", "Malayalam");
  ("gu", "Gujarati"); ("bn", "Bengali"); ("pa", "Gurmukhi");
  ("or", "Oriya"); ("as", "Bengali"); ("en", "ITRANS") ].

(** [target_scripts], the same literal in both views. *)
Definition target_scripts : dict string string := [
  ("Devanagari (Hindi)", "Devanagari"); ("Devanagari (Marathi)", "Devanagari");
  ("Tamil", "Tamil"); ("Telugu", "Telugu"); ("Kannada", "Kannada");
  ("Malayalam", "Malayalam"); ("Gujarati", "Gujarati");
  ("Bengali", "Bengali"); ("Gurmukhi", "Gurmukhi"); ("Oriya", "Oriya");
  ("Roman", "ITRANS") ].

(** What a view hands back. *)
Inductive Response :=
| HTTP_400_BAD_REQUEST (error : string)
| HTTP_500_INTERNAL_SERVER_ERROR (error : exn)
| HTTP_200_image (original_text : str) (detected_language : string)
                 (transliterations : dict string str)
| HTTP_200_single (original_text : str) (detected_language : string)
                  (target_language : string) (transliterated_text : str)
                  (all_transliterations : dict string str).

Definition no_text_error : string :=
  "No text could be extracted from the image. Please ensure the image contains clear, readable text.".

Section WithCollaborators.
Variable U : ucd.
(** [langdetect.detect] and [aksharamukha.transliterate.process]; either
    may raise. *)
Variable detect : str -> exc string.
Variable process : string -> string -> str -> exc str.

(** [lang == 'en' or not lang or lang == 'unknown'] *)
Definition english_or_unknown (lang : string) : bool :=
  (lang =? "en") || (lang =? "") || (lang =? "unknown").

(** The first attempt of the loop body; [english] is the test the view
    makes on the language. *)
Definition primary_conversion (english : bool)
    (source_script script_code : string) (extracted_text : str) : exc str :=
  if english
  then if script_code =? "ITRANS"
       then Ok extracted_text
       else process "ITRANS" script_code extracted_text
  else process source_script script_code extracted_text.

(** The body of the loop over [target_scripts.items()], as both views
    have it. *)
Definition transliterate_entry (english : bool) (source_script : string)
    (extracted_text : str) (transliterations : dict string str)
    (item : string * string) : exc (dict string str) :=
  let (script_name, script_code) := item in
  try_except
    (transliterated_text <-
       primary_conversion english source_script script_code
                          extracted_text ;;
     formatted_text <-
       clean_transliteration U formatter transliterated_text script_code ;;
     Ok (dict_set transliterations script_name formatted_text))
    (fun e =>
       try_except
         (transliterated_text <-
            process "ITRANS" script_code extracted_text ;;
          formatted_text <-
            clean_transliteration U formatter transliterated_text
                                  script_code ;;
          Ok (dict_set transliterations script_name formatted_text))
         (fun e2 =>
            Ok (dict_set transliterations script_name extracted_text))).

Fixpoint for_each_target (english : bool) (source_script : string)
    (extracted_text : str) (transliterations : dict string str)
    (items : list (string * string)) : exc (dict string str) :=
  match items with
  | [] => Ok transliterations
  | item :: rest =>
    transliterations <-
      transliterate_entry english source_script extracted_text
                          transliterations item ;;
    for_each_target english source_script extracted_text
                    transliterations rest
  end.

(** The three ways the loop body comes to the value it stores: the
    first conversion cleaned, the ITRANS retry cleaned after the first
    attempt raised, the extracted text after both raised. *)
Inductive stored (english : bool) (source_script : string)
    (extracted_text : str) (script_code : string) : str -> Prop :=
| stored_primary raw v :
    primary_conversion english source_script script_code extracted_text
      = Ok raw ->
    clean_transliteration U formatter raw script_code = Ok v ->
    stored english source_script extracted_text script_code v
| stored_fallback e raw v :
    primary_conversion english source_script script_code extracted_text
      = Raise e ->
    process "ITRANS" script_code extracted_text = Ok raw ->
    clean_transliteration U formatter raw script_code = Ok v ->
    stored english source_script extracted_text script_code v
| stored_original e e2 :
    primary_conversion english source_script script_code extracted_text
      = Raise e ->
    process "ITRANS" script_code extracted_text = Raise e2 ->
    stored english source_script extracted_text script_code extracted_text.

(** [extracted_text = ' '.join(" ".join(texts).split())] *)
Definition extract_text (texts : list str) : str :=
  join (u " ") (split U (join (u " ") texts)).

(** *** [transliterate_image], from the OCR results on *)

Definition image_source_script (detected_language : string) : string :=
  if english_or_unknown detected_language then "ITRANS"
  else dict_get language_to_script detected_language "ITRANS".

Definition image_transliterations (detected_language : string)
    (extracted_text : str) : exc (dict string str) :=
  for_each_target (english_or_unknown detected_language)
                  (image_source_script detected_language)
                  extracted_text [] target_scripts.

Definition transliterate_image (texts : list str) : Response :=
  let extracted_text := extract_text texts in
  match extracted_text with
  | [] => HTTP_400_BAD_REQUEST no_text_error
  | _ =>
    let detected_language :=
      match detect extracted_text with
      | Ok l => l
      | Raise _ => "unknown"
      end in
    match image_transliterations detected_language extracted_text with
    | Ok transliterations =>
      HTTP_200_image extracted_text detected_language transliterations
    | Raise e => HTTP_500_INTERNAL_SERVER_ERROR e
    end
  end.

(** *** [transliterate_single], from the OCR results on *)

Definition actual_source_language (detected_language source_language : string)
  : string :=
  if (detected_language =? "en") || (source_language =? "en") then "en"
  else if negb (detected_language =? "unknown") then detected_language
  else source_language.

Definition single_source_script (actual : string) : string :=
  dict_get language_to_script actual "Devanagari".

Definition single_target_script (target_language : string) : string :=
  dict_get language_to_script target_language "ITRANS".

Definition failure_text (extracted_text : str) : str :=
  (u "[Transliteration failed: OCR output appears to be garbled. Original: "
     ++ firstn 50 extracted_text ++ u "...]")%list.

Definition single_transliteration (actual source_script target_script : string)
    (extracted_text : str) : exc str :=
  try_except
    (if actual =? "en"
     then if target_script =? "ITRANS"
          then Ok extracted_text
          else
            raw_transliterated <-
              process "ITRANS" target_script extracted_text ;;
            clean_transliteration U formatter raw_transliterated
                                  target_script
     else
       raw_transliterated <-
         process source_script target_script extracted_text ;;
       clean_transliteration U formatter raw_transliterated target_script)
    (fun e =>
       try_except
         (raw_transliterated <-
            process "ITRANS" target_script extracted_text ;;
          clean_transliteration U formatter raw_transliterated
                                target_script)
         (fun e2 => Ok (failure_text extracted_text))).

Definition single_all_transliterations (actual source_script : string)
    (extracted_text : str) : exc (dict string str) :=
  for_each_target (actual =? "en") source_script extracted_text []
                  target_scripts.

Definition transliterate_single (source_language target_language : string)
    (texts : list str) : Response :=
  let extracted_text := extract_text texts in
  match extracted_text with
  | [] => HTTP_400_BAD_REQUEST no_text_error
  | _ =>
    let detected_language :=
      match detect extracted_text with
      | Ok l => l
      | Raise _ => source_language
      end in
    let actual := actual_source_language detected_language source_language in
    let source_script := single_source_script actual in
    let target_script := single_target_script target_language in
    match
      (transliterated_text <-
         single_transliteration actual source_script target_script
                                extracted_text ;;
       all_transliterations <-
         single_all_transliterations actual source_script extracted_text ;;
       Ok (HTTP_200_single extracted_text actual target_language
                           transliterated_text all_transliterations))
    with
    | Ok response => response
    | Raise e => HTTP_500_INTERNAL_SERVER_ERROR e
    end
  end.
End WithCollaborators.

(** A conversion function that raises on every call. *)
Definition always_fails : string -> string -> str -> exc str :=
  fun _ _ _ => Raise ConversionError.

End Views.

(** * Properties *)

(** ** The built-ins *)

Module PyFacts.
Import Py.

Lemma in_range_iff lo hi c : in_range lo hi c = true <-> lo <= c <= hi.
Proof. unfold in_range. rewrite andb_true_iff, !Z.leb_le. tauto. Qed.

Lemma startswith_app s t : startswith (s ++ t) s = true.
Proof.
  induction s as [|a s IH]; simpl; [now destruct t|].
  now rewrite Z.eqb_refl, IH.
Qed.

Lemma startswith_iff s p : startswith s p = true <-> exists t, s = p ++ t.
Proof.
  revert s. induction p as [|a p IH]; intros s; simpl.
  - split; [intros _; now exists s | now destruct s].
  - destruct s as [|b s]; simpl.
    + split; [discriminate | intros [t Ht]; discriminate].
    + rewrite andb_true_iff, Z.eqb_eq, IH. split.
      * intros [-> [t ->]]. now exists t.
      * intros [t Ht]. injection Ht as -> ->. split; [reflexivity | now exists t].
Qed.

Lemma contains_iff s sub :
  contains s sub = true <-> exists a b, s = a ++ sub ++ b.
Proof.
  induction s as [|c s IH]; cbn [contains].
  - rewrite orb_false_r, startswith_iff. split.
    + intros [t Ht]. now exists [], t.
    + intros [a [b H]]. destruct a; [now exists b | discriminate].
  - rewrite orb_true_iff, IH, startswith_iff. split.
    + intros [[t Ht] | [a [b H]]].
      * now exists [], t.
      * exists (c :: a), b. now rewrite H.
    + intros [a [b H]]. destruct a as [|c' a].
      * left. now exists b.
      * right. injection H as _ H. now exists a, b.
Qed.

Section Unicode.
Variable U : ucd.

(** The words [split] returns are never empty. *)
Lemma split_from_nonempty s : forall w x,
  In x (split_from U w s) -> x <> [].
Proof.
  induction s as [|c s IH]; intros w x; simpl.
  - destruct w; simpl; [tauto|]. intros [<-|[]]. discriminate.
  - destruct (c_isspace U c).
    + destruct w.
      * apply IH.
      * intros [<-|H]; [discriminate | now apply IH in H].
    + intros H. now apply IH in H.
Qed.

Lemma split_nonempty s x : In x (split U s) -> x <> [].
Proof. apply split_from_nonempty. Qed.
End Unicode.

Lemma mapM_ok {A B : Type} (f : A -> exc B) (l : list A) :
  (forall a, In a l -> exists b, f a = Ok b) ->
  exists bs, mapM f l = Ok bs.
Proof.
  induction l as [|a l IH]; intros H; simpl.
  - now exists [].
  - destruct (H a) as [b Hb]; [now left|]. rewrite Hb. simpl.
    destruct IH as [bs Hbs]; [intros; apply H; now right|].
    rewrite Hbs. simpl. now exists (b :: bs).
Qed.

End PyFacts.

(** ** The formatter *)

Module FormattersFacts.
Import Py Formatters PyFacts.

Section WithUnicode.
Variable U : ucd.

Lemma format_word_ok word : word <> [] -> exists w, format_word U word = Ok w.
Proof.
  intros Hne. unfold format_word.
  destruct (isupper U word); [now exists word|].
  destruct word as [|c r]; [contradiction|]. simpl.
  repeat match goal with
         | |- context [if ?b then _ else _] => destruct b
         end; eauto.
Qed.

Lemma _format_for_english_ok self text :
  exists t, _format_for_english U self text = Ok t.
Proof.
  unfold _format_for_english.
  match goal with
  | |- context [mapM ?f ?l] => destruct (mapM_ok f l) as [ws Hws]
  end.
  - intros w Hw. apply format_word_ok. eapply split_nonempty, Hw.
  - rewrite Hws. simpl. eauto.
Qed.

(** [clean_transliteration] returns for every text and target: the one
    indexing that could raise, [word[0]], only meets non-empty words. *)
Lemma clean_transliteration_ok self text target_script :
  exists t, clean_transliteration U self text target_script = Ok t.
Proof.
  unfold clean_transliteration. destruct text as [|c r]; [eauto|].
  destruct (is_indian_script (c :: r)); simpl; [eauto|].
  destruct (is_roman_target target_script); simpl; [|eauto].
  destruct (_format_for_english_ok self (clean_roman_text U self (c :: r)))
    as [t ->].
  simpl. eauto.
Qed.
End WithUnicode.

End FormattersFacts.

(** ** The views *)

Module ViewsFacts.
Import Py Formatters Views PyFacts FormattersFacts.
Local Open Scope string_scope.

Section WithCollaborators.
Variable U : ucd.
Variable process : string -> string -> str -> exc str.

Lemma transliterate_entry_stored english source_script text d name code :
  exists v,
    transliterate_entry U process english source_script text d (name, code)
      = Ok (dict_set d name v)
    /\ stored U process english source_script text code v.
Proof.
  unfold transliterate_entry.
  destruct (primary_conversion process english source_script code text)
    as [raw|e] eqn:Hprimary; simpl.
  - destruct (clean_transliteration_ok U formatter raw code) as [v Hv].
    rewrite Hv. simpl. exists v. split; [reflexivity|].
    eapply stored_primary; eassumption.
  - destruct (process "ITRANS" code text) as [raw|e2] eqn:Hfallback; simpl.
    + destruct (clean_transliteration_ok U formatter raw code) as [v Hv].
      rewrite Hv. simpl. exists v. split; [reflexivity|].
      eapply stored_fallback; eassumption.
    + exists text. split; [reflexivity|].
      eapply stored_original; eassumption.
Qed.

Lemma for_each_target_stored english source_script text items : forall d,
  exists vs,
    Forall2 (fun item v => stored U process english source_script text
                                  (snd item) v) items vs
    /\ for_each_target U process english source_script text d items
       = Ok (fold_left (fun d nv => dict_set d (fst nv) (snd nv))
                       (combine (map fst items) vs) d).
Proof.
  induction items as [|[name code] items IH]; intros d.
  - exists []. split; [constructor | reflexivity].
  - destruct (transliterate_entry_stored english source_script text d
                                         name code) as [v [Hrun Hv]].
    destruct (IH (dict_set d name v)) as [vs [Hvs Hloop]].
    exists (v :: vs). split; [now constructor|].
    cbn [for_each_target]. rewrite Hrun. cbn [bind]. exact Hloop.
Qed.

(** The loop over [target_scripts], started on the empty dict, stores
    one value under each name, in the order of the literal. *)
Lemma all_targets_stored english source_script text :
  exists vs,
    Forall2 (fun item v => stored U process english source_script text
                                  (snd item) v) target_scripts vs
    /\ for_each_target U process english source_script text []
                       target_scripts
       = Ok (combine (map fst target_scripts) vs).
Proof.
  destruct (for_each_target_stored english source_script text
                                   target_scripts []) as [vs [Hvs Hloop]].
  exists vs. split; [exact Hvs|]. rewrite Hloop. f_equal.
  unfold target_scripts in Hvs.
  repeat match goal with
         | H : Forall2 _ (_ :: _) _ |- _ => inversion H; subst; clear H
         | H : Forall2 _ [] _ |- _ => inversion H; subst; clear H
         end.
  reflexivity.
Qed.

(** When the first conversion returns, what is stored is its cleaned
    result. *)
Lemma stored_primary_inv english source_script text code raw v :
  primary_conversion process english source_script code text = Ok raw ->
  stored U process english source_script text code v ->
  clean_transliteration U formatter raw code = Ok v.
Proof.
  intros Hp Hs. inversion Hs; subst; congruence.
Qed.

(** When every conversion raises, the extracted text is stored. *)
Lemma stored_original_inv english source_script text code e e2 v :
  primary_conversion process english source_script code text = Raise e ->
  process "ITRANS" code text = Raise e2 ->
  stored U process english source_script text code v ->
  v = text.
Proof.
  intros Hp Hf Hs. inversion Hs; subst; congruence.
Qed.
End WithCollaborators.

Ltac split_stored H :=
  unfold target_scripts in H;
  repeat match type of H with
         | Forall2 _ _ _ => inversion H; subst; clear H
         end;
  repeat match goal with
         | H' : Forall2 _ (_ :: _) _ |- _ => inversion H'; subst; clear H'
         | H' : Forall2 _ [] _ |- _ => inversion H'; subst; clear H'
         end.

(** C5, as the code has it: for every non-empty extracted text, whatever the
    detector and the converter do, [transliterate_image] answers 200 and its
    mapping has exactly the eleven names of [target_scripts], in the order
    of the literal, [Roman] being the name of the code ITRANS. No exception
    leaves the loop. *)
Theorem all_targets_eleven_entries U detect process texts :
  extract_text U texts <> [] ->
  exists lang d,
    transliterate_image U detect process texts
      = HTTP_200_image (extract_text U texts) lang d
    /\ map fst d =
       ["Devanagari (Hindi)"; "Devanagari (Marathi)"; "Tamil"; "Telugu";
        "Kannada"; "Malayalam"; "Gujarati"; "Bengali"; "Gurmukhi"; "Oriya";
        "Roman"]
    /\ List.length d = 11%nat
    /\ dict_get target_scripts "Roman" "" = "ITRANS".
Proof.
  intros Hne. unfold transliterate_image.
  destruct (extract_text U texts) as [|c r] eqn:Htext; [contradiction|].
  set (lang := match detect (c :: r) with Ok l => l | Raise _ => "unknown" end).
  unfold image_transliterations.
  destruct (all_targets_stored U process (english_or_unknown lang)
              (image_source_script lang) (c :: r)) as [vs [Hvs ->]].
  exists lang. eexists. split; [reflexivity|].
  split_stored Hvs. repeat split.
Qed.

Lemma all_targets_eleven_entries_witness :
  exists lang d,
    transliterate_image Ucd.table (fun _ => Ok "hi") always_fails [u "namaste"]
      = HTTP_200_image (u "namaste") lang d
    /\ List.length d = 11%nat.
Proof.
  destruct (all_targets_eleven_entries Ucd.table (fun _ => Ok "hi")
              always_fails [u "namaste"]) as [lang [d [H1 [_ [H3 _]]]]].
  - vm_compute. discriminate.
  - exists lang, d. split; [exact H1 | exact H3].
Defined.

Lemma all_targets_not_ten_entries :
  exists d,
    image_transliterations Ucd.table always_fails "hi" (u "namaste") = Ok d
    /\ List.length d <> 10%nat.
Proof.
  eexists. split; [vm_compute; reflexivity|]. simpl. discriminate.
Qed.

(** C2, as the code has it: when the detected language is [en], empty or
    [unknown], the [Roman] entry of [transliterate_image] is the
    normaliser's output on the extracted text for the target ITRANS; the
    converter is not consulted for it. The single-target result of
    [transliterate_single] for an English source and the ITRANS target is
    the extracted text itself. *)
Theorem roman_entry_of_english_source U process lang source_script text :
  english_or_unknown lang = true ->
  exists d,
    image_transliterations U process lang text = Ok d
    /\ clean_transliteration U formatter text "ITRANS"
       = Ok (dict_get d "Roman" [])
    /\ single_transliteration U process "en" source_script "ITRANS" text
       = Ok text.
Proof.
  intros Hen. unfold image_transliterations. rewrite Hen.
  destruct (all_targets_stored U process true (image_source_script lang) text)
    as [vs [Hvs ->]].
  eexists. split; [reflexivity|]. split; [|reflexivity].
  split_stored Hvs. cbn.
  eapply stored_primary_inv; [|eassumption]. reflexivity.
Qed.

Lemma roman_entry_of_english_source_witness :
  exists d,
    image_transliterations Ucd.table always_fails "unknown" (u "pitaaji") = Ok d
    /\ clean_transliteration Ucd.table formatter (u "pitaaji") "ITRANS"
       = Ok (dict_get d "Roman" []).
Proof.
  destruct (roman_entry_of_english_source Ucd.table always_fails "unknown"
              "ITRANS" (u "pitaaji")) as [d [H1 [H2 _]]].
  - reflexivity.
  - exists d. split; [exact H1 | exact H2].
Defined.

Lemma roman_entry_not_the_input :
  exists d,
    image_transliterations Ucd.table always_fails "en" (u "HELLO") = Ok d
    /\ dict_get d "Roman" [] = u "Hello"
    /\ dict_get d "Roman" [] <> join (u " ") (split Ucd.table (u "HELLO")).
Proof.
  eexists. split; [vm_compute; reflexivity|].
  split; [reflexivity | vm_compute; discriminate].
Qed.

(** C3, as the code has it: the loop over [target_scripts] returns a
    mapping in which every entry is either the normaliser's output on the
    result of a conversion that returned (the first attempt, or the ITRANS
    retry after the first attempt raised), or, when both raised, the
    extracted text itself, stored without normalisation. *)
Theorem stored_entries_cleaned_or_original U process english source_script text :
  exists d,
    for_each_target U process english source_script text [] target_scripts
      = Ok d
    /\ forall name code, In (name, code) target_scripts ->
       (exists raw,
          (primary_conversion process english source_script code text = Ok raw
           \/ (exists e, primary_conversion process english source_script
                                            code text = Raise e)
              /\ process "ITRANS" code text = Ok raw)
          /\ clean_transliteration U formatter raw code
             = Ok (dict_get d name []))
       \/ ((exists e, primary_conversion process english source_script
                                         code text = Raise e)
           /\ (exists e2, process "ITRANS" code text = Raise e2)
           /\ dict_get d name [] = text).
Proof.
  destruct (all_targets_stored U process english source_script text)
    as [vs [Hvs ->]].
  eexists. split; [reflexivity|].
  assert (Hcase : forall code v,
            stored U process english source_script text code v ->
            (exists raw,
               (primary_conversion process english source_script code text
                  = Ok raw
                \/ (exists e, primary_conversion process english source_script
                                                 code text = Raise e)
                   /\ process "ITRANS" code text = Ok raw)
               /\ clean_transliteration U formatter raw code = Ok v)
            \/ ((exists e, primary_conversion process english source_script
                                              code text = Raise e)
                /\ (exists e2, process "ITRANS" code text = Raise e2)
                /\ v = text)).
  { intros code v Hs. inversion Hs; subst; eauto 8. }
  split_stored Hvs. intros name code Hin. simpl in Hin.
  repeat (destruct Hin as [Hin|Hin];
          [injection Hin as <- <-; cbn; now apply Hcase|]).
  contradiction.
Qed.

Lemma stored_entries_cleaned_or_original_witness :
  exists d,
    for_each_target Ucd.table always_fails false "Devanagari" (u "dIpAvalI")
                    [] target_scripts = Ok d
    /\ dict_get d "Tamil" [] = u "dIpAvalI".
Proof.
  destruct (stored_entries_cleaned_or_original Ucd.table always_fails false
              "Devanagari" (u "dIpAvalI")) as [d [H1 H2]].
  exists d. split; [exact H1|].
  destruct (H2 "Tamil" "Tamil") as [[raw [[H|[_ H]] _]]|[_ [_ H]]].
  - simpl. tauto.
  - discriminate H.
  - discriminate H.
  - exact H.
Defined.

Lemma original_text_stored_uncleaned :
  exists d,
    image_transliterations Ucd.table always_fails "hi" (u "dIpAvalI") = Ok d
    /\ dict_get d "Tamil" [] = u "dIpAvalI"
    /\ clean_transliteration Ucd.table formatter (u "dIpAvalI") "Tamil"
       = Ok (u "Deepavali")
    /\ Ok (dict_get d "Tamil" [])
       <> clean_transliteration Ucd.table formatter (u "dIpAvalI") "Tamil".
Proof.
  eexists. split; [vm_compute; reflexivity|].
  split; [reflexivity|]. split; [vm_compute; reflexivity|].
  vm_compute. discriminate.
Qed.

Lemma dict_get_absent {V : Type} (d : dict string V) k default :
  ~ In k (map fst d) -> dict_get d k default = default.
Proof.
  induction d as [|[k' v'] d IH]; simpl; intros Hn; [reflexivity|].
  destruct (String.eqb_spec k' k) as [->|Hk]; [tauto|].
  apply IH. tauto.
Qed.

(** C4, as the code has it: in [transliterate_image] a detected language
    that is [en], empty, [unknown] or absent from [language_to_script]
    resolves to ITRANS; in both views a tag of the table resolves to its
    entry; in [transliterate_single] a tag absent from the table resolves
    to Devanagari. *)
Theorem source_script_resolution :
  (forall lang,
     english_or_unknown lang = true \/ ~ In lang (map fst language_to_script) ->
     image_source_script lang = "ITRANS")
  /\ (forall lang script, In (lang, script) language_to_script ->
      image_source_script lang = script /\ single_source_script lang = script)
  /\ (forall lang, ~ In lang (map fst language_to_script) ->
      single_source_script lang = "Devanagari").
Proof.
  split; [|split].
  - intros lang [H|H]; unfold image_source_script.
    + now rewrite H.
    + destruct (english_or_unknown lang); [reflexivity|].
      now apply dict_get_absent.
  - intros lang script Hin. simpl in Hin.
    repeat (destruct Hin as [Hin|Hin];
            [injection Hin as <- <-; split; reflexivity|]).
    contradiction.
  - intros lang H. now apply dict_get_absent.
Qed.

Lemma source_script_resolution_witness :
  image_source_script "unknown" = "ITRANS"
  /\ image_source_script "fr" = "ITRANS"
  /\ image_source_script "ta" = "Tamil"
  /\ single_source_script "ta" = "Tamil"
  /\ single_source_script "fr" = "Devanagari".
Proof.
  destruct source_script_resolution as [H1 [H2 H3]].
  assert (Hfr : ~ In "fr" (map fst language_to_script)).
  { simpl. intros H. repeat (destruct H as [H|H]; [discriminate H|]). exact H. }
  split; [apply H1; left; reflexivity|].
  split; [apply H1; right; exact Hfr|].
  destruct (H2 "ta" "Tamil") as [Ha Hb]; [simpl; tauto|].
  split; [exact Ha|]. split; [exact Hb|].
  apply H3, Hfr.
Defined.

Lemma single_source_default_not_itrans :
  ~ In "fr" (map fst language_to_script)
  /\ actual_source_language "fr" "hi" = "fr"
  /\ single_source_script (actual_source_language "fr" "hi") = "Devanagari"
  /\ single_source_script (actual_source_language "unknown" "unknown")
     = "Devanagari"
  /\ single_source_script (actual_source_language "fr" "hi") <> "ITRANS".
Proof.
  split.
  { simpl. intros H. repeat (destruct H as [H|H]; [discriminate H|]). exact H. }
  repeat split. vm_compute. discriminate.
Qed.

Lemma failure_text_contains text :
  contains (failure_text text) (u "Transliteration failed") = true.
Proof.
  apply contains_iff.
  exists (u "["),
    (u ": OCR output appears to be garbled. Original: "
       ++ firstn 50 text ++ u "...]")%list.
  unfold failure_text.
  assert (E : u "[Transliteration failed: OCR output appears to be garbled. Original: "
              = (u "[" ++ u "Transliteration failed"
                   ++ u ": OCR output appears to be garbled. Original: ")%list)
    by (vm_compute; reflexivity).
  rewrite E. now rewrite <- !app_assoc.
Qed.

Section WhenConversionFails.
Variable U : ucd.
Variable process : string -> string -> str -> exc str.
Hypothesis process_fails : forall s t x, exists e, process s t x = Raise e.

Lemma stored_when_failing english source_script text code v :
  english = false \/ code <> "ITRANS" ->
  stored U process english source_script text code v -> v = text.
Proof.
  intros Hc Hs.
  destruct (process_fails "ITRANS" code text) as [e2 He2].
  assert (Hp : exists e, primary_conversion process english source_script
                                            code text = Raise e).
  { unfold primary_conversion. destruct english.
    - destruct (String.eqb_spec code "ITRANS") as [->|_].
      + destruct Hc as [Hc|Hc]; [discriminate | now elim Hc].
      + eauto.
    - apply process_fails. }
  destruct Hp as [e He]. eapply stored_original_inv; eassumption.
Qed.

Lemma all_targets_when_failing english source_script text :
  exists d,
    for_each_target U process english source_script text [] target_scripts
      = Ok d
    /\ (forall name code, In (name, code) target_scripts ->
        name <> "Roman" \/ english = false -> dict_get d name [] = text)
    /\ (english = true ->
        clean_transliteration U formatter text "ITRANS"
        = Ok (dict_get d "Roman" [])).
Proof.
  destruct (all_targets_stored U process english source_script text)
    as [vs [Hvs ->]].
  eexists. split; [reflexivity|].
  split_stored Hvs. split.
  - intros name code Hin Hc. simpl in Hin.
    repeat (destruct Hin as [Hin|Hin];
            [injection Hin as <- <-; cbn [dict_get String.eqb Ascii.eqb Bool.eqb];
             eapply stored_when_failing; [|eassumption];
             first [right; discriminate
                   | destruct Hc as [Hc|Hc]; [now elim Hc | now left]]|]).
    contradiction.
  - intros ->. cbn [dict_get String.eqb Ascii.eqb Bool.eqb]. eapply stored_primary_inv; [|eassumption]. reflexivity.
Qed.

Lemma single_when_failing actual source_script target_script text :
  actual <> "en" \/ target_script <> "ITRANS" ->
  single_transliteration U process actual source_script target_script text
  = Ok (failure_text text).
Proof.
  intros Hc. unfold single_transliteration.
  destruct (process_fails "ITRANS" target_script text) as [e2 He2].
  destruct (process_fails source_script target_script text) as [e He].
  destruct (String.eqb_spec actual "en") as [->|_].
  - destruct (String.eqb_spec target_script "ITRANS") as [->|_].
    + destruct Hc as [Hc|Hc]; now elim Hc.
    + rewrite He2. reflexivity.
  - rewrite He. cbn [bind try_except]. rewrite He2. reflexivity.
Qed.
End WhenConversionFails.

(** C6, as the code has it: if the converter raises on every call, both
    loops still return a mapping; every entry for which a conversion is
    attempted holds the extracted text, the [Roman] entry of an English
    source holds the normaliser's output on it; the single-target result
    is the failure text, which contains "Transliteration failed" and the
    first 50 code points of the extracted text at most, except for an
    English source with the ITRANS target, where it is the extracted text. *)
Theorem total_failure_substitution U process lang actual source_script text :
  (forall s t x, exists e, process s t x = Raise e) ->
  exists d d',
    image_transliterations U process lang text = Ok d
    /\ single_all_transliterations U process actual source_script text = Ok d'
    /\ (forall name code, In (name, code) target_scripts ->
        (name <> "Roman" \/ english_or_unknown lang = false ->
         dict_get d name [] = text)
        /\ (name <> "Roman" \/ (actual =? "en") = false ->
            dict_get d' name [] = text))
    /\ (english_or_unknown lang = true ->
        clean_transliteration U formatter text "ITRANS"
        = Ok (dict_get d "Roman" []))
    /\ ((actual =? "en") = true ->
        clean_transliteration U formatter text "ITRANS"
        = Ok (dict_get d' "Roman" []))
    /\ (forall target_script,
        actual <> "en" \/ target_script <> "ITRANS" ->
        single_transliteration U process actual source_script target_script
                               text = Ok (failure_text text))
    /\ single_transliteration U process "en" source_script "ITRANS" text
       = Ok text
    /\ contains (failure_text text) (u "Transliteration failed") = true
    /\ failure_text text
       = (u "[Transliteration failed: OCR output appears to be garbled. Original: "
            ++ firstn 50 text ++ u "...]")%list
    /\ (List.length (firstn 50 text) <= 50)%nat.
Proof.
  intros Hfail.
  unfold image_transliterations, single_all_transliterations.
  destruct (all_targets_when_failing U process Hfail
              (english_or_unknown lang) (image_source_script lang) text)
    as [d [Hd [Hraw Hroman]]].
  destruct (all_targets_when_failing U process Hfail
              (actual =? "en") source_script text)
    as [d' [Hd' [Hraw' Hroman']]].
  exists d, d'.
  split; [exact Hd|]. split; [exact Hd'|].
  split; [|split; [exact Hroman|split; [exact Hroman'|split; [|split; [|split; [|split]]]]]].
  - intros name code Hin. split; intros Hc.
    + eapply Hraw; eassumption.
    + eapply Hraw'; eassumption.
  - intros target_script Hc. now apply single_when_failing.
  - reflexivity.
  - apply failure_text_contains.
  - reflexivity.
  - apply firstn_le_length.
Qed.

Lemma total_failure_substitution_witness :
  exists d,
    image_transliterations Ucd.table always_fails "hi" (u "namaste") = Ok d
    /\ dict_get d "Tamil" [] = u "namaste"
    /\ single_transliteration Ucd.table always_fails "hi" "Devanagari"
                              "Tamil" (u "namaste")
       = Ok (failure_text (u "namaste")).
Proof.
  destruct (total_failure_substitution Ucd.table always_fails "hi" "hi"
              "Devanagari" (u "namaste"))
    as [d [d' [H1 [H1' [H2 [H4 [H5 [H3 H6]]]]]]]].
  - intros s t x. exists ConversionError. reflexivity.
  - exists d. split; [exact H1|]. split.
    + destruct (H2 "Tamil" "Tamil") as [H _]; [simpl; tauto|].
      apply H. left. discriminate.
    + apply H3. left. discriminate.
Defined.

Lemma english_source_not_substituted :
  exists d,
    image_transliterations Ucd.table always_fails "en" (u "HELLO") = Ok d
    /\ dict_get d "Roman" [] = u "Hello"
    /\ dict_get d "Roman" [] <> u "HELLO"
    /\ single_transliteration Ucd.table always_fails "en" "ITRANS" "ITRANS"
                              (u "HELLO") = Ok (u "HELLO")
    /\ contains (u "HELLO") (u "Transliteration failed") = false.
Proof.
  eexists. split; [vm_compute; reflexivity|].
  split; [reflexivity|]. split; [vm_compute; discriminate|].
  split; vm_compute; reflexivity.
Qed.
End ViewsFacts.

(** ** Where the code points of a result come from *)

Module StrFacts.
Import Py PyFacts.

Lemma existsb_replace_from (P : char -> bool) old new s : forall skip,
  existsb P (replace_from old new skip s) = true ->
  existsb P s = true \/ existsb P new = true.
Proof.
  induction s as [|c r IH]; intros skip; cbn [replace_from].
  - intros H. discriminate H.
  - destruct skip as [|k].
    + destruct (startswith (c :: r) old).
      * rewrite existsb_app, orb_true_iff. intros [H|H]; [now right|].
        apply IH in H. cbn [existsb]. rewrite orb_true_iff. tauto.
      * cbn [existsb]. rewrite !orb_true_iff. intros [H|H]; [tauto|].
        apply IH in H. tauto.
    + intros H. apply IH in H. cbn [existsb]. rewrite orb_true_iff. tauto.
Qed.

(** [s.replace(old, new)] holds no code point that is in neither [s] nor
    [new]. *)
Lemma existsb_replace (P : char -> bool) s old new :
  existsb P (replace s old new) = true ->
  existsb P s = true \/ existsb P new = true.
Proof.
  unfold replace. destruct old as [|o old].
  - rewrite existsb_app, orb_true_iff. intros [H|H]; [now right|].
    induction s as [|c r IH]; [discriminate H|].
    cbn [flat_map app existsb] in H |- *.
    rewrite existsb_app in H. rewrite !orb_true_iff in H.
    rewrite orb_true_iff. tauto.
  - apply existsb_replace_from.
Qed.

Lemma existsb_fold_left (P : char -> bool)
    (f : str -> str * str -> str) table :
  (forall s kv, existsb P (f s kv) = true ->
                existsb P s = true \/ existsb P (snd kv) = true) ->
  forall s,
  existsb P (fold_left f table s) = true ->
  existsb P s = true \/ exists kv, In kv table /\ existsb P (snd kv) = true.
Proof.
  intros Hf. induction table as [|kv table IH]; intros s; cbn [fold_left].
  - tauto.
  - intros H. apply IH in H. destruct H as [H|[kv' [Hin H]]].
    + apply Hf in H. destruct H as [H|H]; [tauto|].
      right. exists kv. split; [now left | exact H].
    + right. exists kv'. split; [now right | exact H].
Qed.

Lemma existsb_fold_replace (P : char -> bool) table s :
  existsb P (fold_left (fun text kv => replace text (fst kv) (snd kv))
                       table s) = true ->
  existsb P s = true \/ exists kv, In kv table /\ existsb P (snd kv) = true.
Proof.
  apply existsb_fold_left. intros t kv. apply existsb_replace.
Qed.


Lemma u_space : u " " = [32].
Proof. vm_compute. reflexivity. Qed.

Section Unicode.
Variable U : ucd.


End Unicode.

End StrFacts.

(** ** The normaliser *)

Module NormalizerFacts.
Import Py Formatters PyFacts FormattersFacts StrFacts.

Section WithUnicode.
Variable U : ucd.

Lemma existsb_word_correction_step (P : char -> bool) text kv :
  existsb P (word_correction_step U text kv) = true ->
  existsb P text = true \/ existsb P (snd kv) = true.
Proof.
  destruct kv as [incorrect correct]. cbn [word_correction_step snd].
  destruct (contains _ _); [apply existsb_replace | tauto].
Qed.

(** The corrected words are plain ASCII. *)
Lemma word_corrections_ascii kv :
  In kv (word_corrections formatter) ->
  existsb (fun c => 128 <=? c) (snd kv) = false.
Proof.
  intros Hin.
  assert (H : forallb (fun kv => negb (existsb (fun c => 128 <=? c) (snd kv)))
                      (word_corrections formatter) = true)
    by (vm_compute; reflexivity).
  rewrite forallb_forall in H. apply H in Hin.
  now apply negb_true_iff in Hin.
Qed.

Lemma existsb_range_not_ascii lo hi s :
  128 <= lo ->
  existsb (in_range lo hi) s = true -> existsb (fun c => 128 <=? c) s = true.
Proof.
  intros Hlo. rewrite !existsb_exists. intros [c [Hin Hc]].
  exists c. split; [exact Hin|].
  apply in_range_iff in Hc. apply Z.leb_le. lia.
Qed.

(** Word correction brings no code point of a block beyond ASCII into the
    text. *)
Lemma word_corrections_keep_range lo hi text :
  128 <= lo ->
  existsb (in_range lo hi)
          (fold_left (word_correction_step U) (word_corrections formatter)
                     text) = true ->
  existsb (in_range lo hi) text = true.
Proof.
  intros Hlo H.
  apply existsb_fold_left in H;
    [|intros s kv; apply existsb_word_correction_step].
  destruct H as [H|[kv [Hin H]]]; [exact H|].
  apply existsb_range_not_ascii in H; [|exact Hlo].
  rewrite (word_corrections_ascii kv Hin) in H. discriminate H.
Qed.

Lemma has_indian_script_after_corrections text :
  is_indian_script text = false ->
  has_indian_script
    (fold_left (word_correction_step U) (word_corrections formatter) text)
  = false.
Proof.
  unfold is_indian_script, has_indian_script. intros H.
  rewrite !orb_false_iff in H. destruct H as [[[[H1 H2] H3] _] _].
  rewrite !orb_false_iff. repeat split; apply not_true_is_false; intros Hc;
    apply word_corrections_keep_range in Hc; try lia; congruence.
Qed.

Lemma _format_for_english_with self table text :
  _format_for_english U (with_english_to_indian self table) text
  = _format_for_english U self text.
Proof. reflexivity. Qed.

Lemma clean_roman_text_with self table text :
  has_indian_script
    (fold_left (word_correction_step U) (word_corrections self) text) = false ->
  clean_roman_text U (with_english_to_indian self table) text
  = clean_roman_text U self text.
Proof.
  intros H. unfold clean_roman_text.
  change (word_corrections (with_english_to_indian self table))
    with (word_corrections self).
  change (character_replacements (with_english_to_indian self table))
    with (character_replacements self).
  rewrite H, !andb_false_r. reflexivity.
Qed.
End WithUnicode.

(** C7: whenever [clean_transliteration] takes the non-Indic branch, the
    text after word corrections has no Devanagari, Telugu or Tamil code
    point, so the mixed-script condition is false; hence the output of
    [clean_transliteration] is the same whatever table
    [english_to_indian_corrections] holds. *)
Theorem english_to_indian_step_unreachable U text :
  is_indian_script text = false ->
  has_indian_script
    (fold_left (word_correction_step U) (word_corrections formatter) text)
  = false
  /\ (has_english_caps U
        (fold_left (word_correction_step U) (word_corrections formatter) text)
      && has_indian_script
           (fold_left (word_correction_step U) (word_corrections formatter)
                      text)) = false
  /\ forall table target_script,
       clean_transliteration U (with_english_to_indian formatter table)
                             text target_script
       = clean_transliteration U formatter text target_script.
Proof.
  intros Hbranch.
  pose proof (has_indian_script_after_corrections U text Hbranch) as Hnone.
  split; [exact Hnone|]. split; [now rewrite Hnone, andb_false_r|].
  intros table target_script. unfold clean_transliteration.
  destruct text as [|c r]; [reflexivity|].
  rewrite Hbranch, clean_roman_text_with by exact Hnone.
  now rewrite _format_for_english_with.
Qed.

Lemma english_to_indian_step_unreachable_witness :
  clean_transliteration Ucd.table
    (with_english_to_indian formatter [(u "Hello", u "Namaste")])
    (u "Hello India") "Tamil"
  = clean_transliteration Ucd.table formatter (u "Hello India") "Tamil".
Proof.
  destruct (english_to_indian_step_unreachable Ucd.table (u "Hello India"))
    as [_ [_ H]].
  - vm_compute. reflexivity.
  - apply H.
Defined.
End NormalizerFacts.

(** ** The clean-up of Indic text *)

Module CleanIndianFacts.
Import Py Formatters PyFacts.

Lemma A_Z_iff c : A_Z c = true <-> 65 <= c <= 90.
Proof. apply in_range_iff. Qed.

Lemma A_Z_not_indian c : A_Z c = true -> indian_scripts c = false.
Proof.
  intros H. apply A_Z_iff in H. unfold indian_scripts, devanagari_range,
    telugu_range, tamil_range, kannada_range, malayalam_range, gujarati_range,
    bengali_range, punjabi_range, in_range.
  repeat match goal with
         | |- context [?a <=? ?b] => destruct (Z.leb_spec a b); try lia
         end; reflexivity.
Qed.

Lemma small_not_A_Z c : A_Z c = true -> A_Z (c + 32) = false.
Proof.
  intros H. apply A_Z_iff in H. unfold A_Z, in_range.
  destruct (Z.leb_spec (c + 32) 90); [lia|]. apply andb_false_r.
Qed.

Lemma small_not_indian c : A_Z c = true -> indian_scripts (c + 32) = false.
Proof.
  intros H. apply A_Z_iff in H. unfold indian_scripts, devanagari_range,
    telugu_range, tamil_range, kannada_range, malayalam_range, gujarati_range,
    bengali_range, punjabi_range, in_range.
  repeat match goal with
         | |- context [?a <=? ?b] => destruct (Z.leb_spec a b); try lia
         end; reflexivity.
Qed.

Section WithUnicode.
Variable U : ucd.

(** [c.lower()] of a capital of [[A-Z]] is the letter 32 further. *)
Lemma lower_A_Z c : A_Z c = true -> lower U [c] = [c + 32].
Proof.
  intros H. pose proof H as Hr. apply A_Z_iff in Hr.
  unfold lower. cbn [do_lower]. unfold lower_at, c_lower, is_ascii.
  destruct (Z.eqb_spec c 0x3A3); [lia|].
  destruct (Z.ltb_spec c 128); [|lia].
  unfold ascii_upper_letter. unfold A_Z in H. rewrite H. reflexivity.
Qed.

Lemma lowered_refl s : lowered s s.
Proof. induction s; constructor; auto. Qed.

Lemma lowered_trans s t r : lowered s t -> lowered t r -> lowered s r.
Proof.
  unfold lowered. intros H. revert r.
  induction H as [|a b s t Hab Hst IH]; intros r Hr; inversion Hr; subst.
  - constructor.
  - constructor; [|now apply IH].
    destruct Hab as [->|[Ha ->]]; [assumption|].
    right. split; [exact Ha|].
    match goal with
    | H : _ = a + 32 \/ _ |- _ => destruct H as [->|[Hc _]]
    end; [reflexivity|].
    rewrite small_not_A_Z in Hc by exact Ha. discriminate Hc.
Qed.

Lemma lowered_cons a b s t :
  b = a \/ (A_Z a = true /\ b = a + 32) -> lowered s t ->
  lowered (a :: s) (b :: t).
Proof. intros. now constructor. Qed.

(** The first and the last substitution only lower capitals. *)
Lemma sub_capital_before_lowered n : forall text,
  (List.length text <= n)%nat -> lowered text (sub_capital_before U text).
Proof.
  induction n as [|n IH]; intros [|a [|b r]] Hlen;
    cbn [List.length] in Hlen; try lia; try apply lowered_refl.
  change (sub_capital_before U (a :: b :: r))
    with (if A_Z a && indian_scripts b
          then lower U [a] ++ [b] ++ sub_capital_before U r
          else a :: sub_capital_before U (b :: r)).
  destruct (A_Z a && indian_scripts b) eqn:Hm.
  - apply andb_true_iff in Hm. destruct Hm as [Ha Hb].
    rewrite lower_A_Z by exact Ha. cbn [app].
    apply lowered_cons; [now right|].
    apply lowered_cons; [now left|]. apply IH. lia.
  - apply lowered_cons; [now left|]. apply IH. cbn [List.length]. lia.
Qed.

Lemma sub_standalone_capital_lowered text : forall prev,
  lowered text (sub_standalone_capital U prev text).
Proof.
  induction text as [|a t IH]; intros prev; cbn [sub_standalone_capital].
  - constructor.
  - destruct (A_Z a && negb (word_char U prev)
              && negb (word_char U (hd_error t))) eqn:Hm.
    + apply andb_true_iff in Hm. destruct Hm as [Hm _].
      apply andb_true_iff in Hm. destruct Hm as [Ha _].
      rewrite lower_A_Z by exact Ha. cbn [app].
      apply lowered_cons; [now right | apply IH].
    + cbn [app]. apply lowered_cons; [now left | apply IH].
Qed.

Lemma lowered_head a s t :
  lowered (a :: s) t ->
  exists b t', t = b :: t' /\ (b = a \/ (A_Z a = true /\ b = a + 32))
               /\ lowered s t'.
Proof. intros H. inversion H; subst. eauto. Qed.

Lemma no_neighbours_cons P a t :
  (forall b, P a b = false) -> no_neighbours P t -> no_neighbours P (a :: t).
Proof. intros Ha Ht. destruct t as [|b t]; cbn; auto. Qed.

Lemma no_neighbours_cons2 P a b t :
  P a b = false -> no_neighbours P (b :: t) -> no_neighbours P (a :: b :: t).
Proof. intros Hab Ht. split; assumption. Qed.

Lemma sub_capital_before_ok n : forall text,
  (List.length text <= n)%nat ->
  no_neighbours capital_before (sub_capital_before U text).
Proof.
  induction n as [|n IH]; intros [|a [|b r]] Hlen;
    cbn [List.length] in Hlen; try lia; try exact I.
  change (sub_capital_before U (a :: b :: r))
    with (if A_Z a && indian_scripts b
          then lower U [a] ++ [b] ++ sub_capital_before U r
          else a :: sub_capital_before U (b :: r)).
  destruct (A_Z a && indian_scripts b) eqn:Hm.
  - apply andb_true_iff in Hm. destruct Hm as [Ha Hb].
    rewrite lower_A_Z by exact Ha. cbn [app].
    apply no_neighbours_cons.
    + intros x. unfold capital_before.
      now rewrite small_not_A_Z by exact Ha.
    + apply no_neighbours_cons; [|apply IH; lia].
      intros x. unfold capital_before.
      destruct (A_Z b) eqn:Hb'; [|reflexivity].
      rewrite A_Z_not_indian in Hb by exact Hb'. discriminate Hb.
  - destruct (lowered_head b r _ (sub_capital_before_lowered (S n) (b :: r)
                                    ltac:(cbn [List.length]; lia)))
      as [b' [t' [Heq [Hb' _]]]].
    pose proof (IH (b :: r) ltac:(cbn [List.length]; lia)) as Hrest.
    rewrite Heq in Hrest |- *.
    apply no_neighbours_cons2; [|exact Hrest].
    destruct Hb' as [->|[Hb ->]]; [exact Hm|].
    unfold capital_before. rewrite small_not_indian by exact Hb.
    apply andb_false_r.
Qed.

End WithUnicode.

(** Lowering capitals creates no capital next to an Indic code point. *)
Lemma lowered_pair (P : char -> char -> bool) a a' b b' :
  P = capital_before \/ P = capital_after ->
  a' = a \/ (A_Z a = true /\ a' = a + 32) ->
  b' = b \/ (A_Z b = true /\ b' = b + 32) ->
  P a b = false -> P a' b' = false.
Proof.
  intros HP Ha Hb H.
  destruct Ha as [->|[Ha ->]], Hb as [->|[Hb ->]]; [exact H| | |];
    destruct HP as [->| ->]; unfold capital_before, capital_after in *;
    rewrite ?small_not_A_Z, ?small_not_indian by assumption;
    rewrite ?andb_false_r; reflexivity.
Qed.

Lemma lowered_no_neighbours (P : char -> char -> bool) s t :
  P = capital_before \/ P = capital_after ->
  lowered s t -> no_neighbours P s -> no_neighbours P t.
Proof.
  intros HP H. induction H as [|a a' s t Ha Hst IH]; [auto|].
  intros Hs. destruct Hst as [|b b' s t Hb Hst]; [exact I|].
  destruct Hs as [Hab Hs]. split.
  - eapply lowered_pair; eassumption.
  - apply IH. exact Hs.
Qed.

Lemma no_neighbours_nth_error P s : forall i a b,
  no_neighbours P s ->
  nth_error s i = Some a -> nth_error s (S i) = Some b -> P a b = false.
Proof.
  induction s as [|x s IH]; intros i a b Hs Ha Hb.
  - destruct i; discriminate Ha.
  - destruct s as [|y s]; [destruct i; discriminate Hb|].
    destruct Hs as [Hxy Hs]. destruct i as [|i].
    + cbn in Ha, Hb. congruence.
    + eapply IH; eassumption.
Qed.

Lemma lowered_nth_error s t : lowered s t -> forall i a,
  nth_error s i = Some a ->
  exists b, nth_error t i = Some b /\ (b = a \/ (A_Z a = true /\ b = a + 32)).
Proof.
  intros H. induction H as [|x y s t Hxy Hst IH]; intros i a Ha.
  - destruct i; discriminate Ha.
  - destruct i as [|i]; cbn in Ha |- *.
    + injection Ha as <-. eauto.
    + now apply IH.
Qed.

Lemma indian_scripts_not_A_Z a : indian_scripts a = true -> A_Z a = false.
Proof.
  intros H. destruct (A_Z a) eqn:Ha; [|reflexivity].
  rewrite A_Z_not_indian in H by exact Ha. discriminate H.
Qed.

Lemma indian_scripts_range a :
  indian_scripts a = true -> 0x0900 <= a <= 0x0d7f.
Proof.
  unfold indian_scripts, devanagari_range, telugu_range, tamil_range,
    kannada_range, malayalam_range, gujarati_range, bengali_range,
    punjabi_range.
  rewrite !orb_true_iff, !in_range_iff. lia.
Qed.

Lemma repaired_refl s : repaired s s.
Proof. induction s; constructor; auto. Qed.

Lemma lowered_repaired s t : lowered s t -> repaired s t.
Proof.
  induction 1 as [|a b s t Hab Hst IH]; constructor; [|exact IH].
  destruct Hab as [->|[Ha ->]]; [now left | right; auto].
Qed.

Lemma repaired_trans s t r : repaired s t -> repaired t r -> repaired s r.
Proof.
  unfold repaired. intros H. revert r.
  induction H as [|a b s t Hab Hst IH]; intros r Hr; inversion Hr; subst.
  - constructor.
  - constructor; [|now apply IH].
    match goal with
    | H : _ = b \/ _ |- _ => destruct H as [->|[Hb Hy]]
    end; [exact Hab|].
    destruct Hab as [->|[Ha [-> |Hi]]].
    + right. now split.
    + rewrite small_not_A_Z in Hb by exact Ha. discriminate Hb.
    + rewrite indian_scripts_not_A_Z in Hb by exact Hi. discriminate Hb.
Qed.

Lemma no_neighbours_tail P a t :
  no_neighbours P (a :: t) -> no_neighbours P t.
Proof. destruct t as [|b t]; [intros _; exact I | now intros [_ H]]. Qed.

(** *** The substitution after an Indic code point, as the code has it *)

Section IndicLower.
Variable U : ucd.

(** Indic code points have no case: each is its own lower case. *)
Hypothesis indic_lower :
  forall a, indian_scripts a = true -> lower U [a] = [a].

Lemma sub_capital_after_repaired n : forall text,
  (List.length text <= n)%nat -> repaired text (sub_capital_after U text).
Proof.
  induction n as [|n IH]; intros [|a [|b r]] Hlen;
    cbn [List.length] in Hlen; try lia; try apply repaired_refl.
  change (sub_capital_after U (a :: b :: r))
    with (if indian_scripts a && A_Z b
          then [a] ++ lower U [a] ++ sub_capital_after U r
          else a :: sub_capital_after U (b :: r)).
  destruct (indian_scripts a && A_Z b) eqn:Hm.
  - apply andb_true_iff in Hm. destruct Hm as [Ha Hb].
    rewrite indic_lower by exact Ha. cbn [app].
    constructor; [now left|].
    constructor; [right; split; [exact Hb | now right]|].
    apply IH. lia.
  - constructor; [now left|]. apply IH. cbn [List.length]. lia.
Qed.

Lemma sub_capital_after_head b r :
  exists t, sub_capital_after U (b :: r) = b :: t.
Proof.
  destruct r as [|c r]; [now exists []|].
  change (sub_capital_after U (b :: c :: r))
    with (if indian_scripts b && A_Z c
          then [b] ++ lower U [b] ++ sub_capital_after U r
          else b :: sub_capital_after U (c :: r)).
  destruct (indian_scripts b && A_Z c); cbn [app]; eauto.
Qed.

(** Overwriting a capital by the Indic code point before it puts no
    capital before an Indic code point. *)
Lemma sub_capital_after_keeps_before n : forall text,
  (List.length text <= n)%nat ->
  no_neighbours capital_before text ->
  no_neighbours capital_before (sub_capital_after U text).
Proof.
  induction n as [|n IH]; intros [|a [|b r]] Hlen Hnn;
    cbn [List.length] in Hlen; try lia; try exact I.
  change (sub_capital_after U (a :: b :: r))
    with (if indian_scripts a && A_Z b
          then [a] ++ lower U [a] ++ sub_capital_after U r
          else a :: sub_capital_after U (b :: r)).
  destruct Hnn as [Hab Hrest].
  destruct (indian_scripts a && A_Z b) eqn:Hm.
  - apply andb_true_iff in Hm. destruct Hm as [Ha Hb].
    rewrite indic_lower by exact Ha. cbn [app].
    assert (Hna : forall x, capital_before a x = false).
    { intros x. unfold capital_before.
      now rewrite indian_scripts_not_A_Z by exact Ha. }
    apply no_neighbours_cons; [exact Hna|].
    apply no_neighbours_cons; [exact Hna|].
    apply IH; [lia|]. eapply no_neighbours_tail, Hrest.
  - destruct (sub_capital_after_head b r) as [t E].
    pose proof (IH (b :: r) ltac:(cbn [List.length]; lia) Hrest) as H.
    rewrite E in H |- *. now apply no_neighbours_cons2.
Qed.

(** Without a capital before an Indic code point, the substitution
    between two Indic code points finds nothing. *)
Lemma sub_capital_between_unused text :
  no_neighbours capital_before text -> sub_capital_between U text = text.
Proof.
  induction text as [|a t IH]; [reflexivity|].
  destruct t as [|b [|c r]]; [reflexivity | reflexivity |].
  intros [Hab Hrest].
  change (sub_capital_between U (a :: b :: c :: r))
    with (if indian_scripts a && A_Z b && indian_scripts c
          then [a] ++ lower U [a] ++ [b] ++ sub_capital_between U r
          else a :: sub_capital_between U (b :: c :: r)).
  destruct Hrest as [Hbc Hrest'].
  unfold capital_before in Hbc.
  rewrite <- andb_assoc, Hbc, andb_false_r. f_equal.
  apply IH. split; assumption.
Qed.

(** What [_clean_indian_script] does to a text: capitals are lowered,
    overwritten by an Indic code point or left, nothing else changes, and
    no capital is left before an Indic code point. *)
Lemma _clean_indian_script_repaired text :
  repaired text (_clean_indian_script U text)
  /\ no_neighbours capital_before (_clean_indian_script U text).
Proof.
  unfold _clean_indian_script.
  pose proof (sub_capital_before_ok U _ text (le_n _)) as Hnn1.
  pose proof (sub_capital_after_keeps_before _ _ (le_n _) Hnn1) as Hnn2.
  rewrite (sub_capital_between_unused _ Hnn2).
  split.
  - eapply repaired_trans;
      [apply lowered_repaired, (sub_capital_before_lowered U _ _ (le_n _))|].
    eapply repaired_trans; [apply (sub_capital_after_repaired _ _ (le_n _))|].
    apply lowered_repaired, sub_standalone_capital_lowered.
  - eapply lowered_no_neighbours;
      [now left | apply sub_standalone_capital_lowered | exact Hnn2].
Qed.
End IndicLower.

(** The table of [Ucd] gives no case to an Indic code point. *)
Lemma table_indic_lower a :
  indian_scripts a = true -> lower Ucd.table [a] = [a].
Proof.
  intros H. apply indian_scripts_range in H.
  unfold lower. cbn [do_lower]. rewrite app_nil_r.
  unfold lower_at, c_lower, is_ascii.
  destruct (Z.eqb_spec a 0x3A3); [lia|].
  destruct (Z.ltb_spec a 128); [lia|].
  cbn [x_lower Ucd.table].
  unfold Ucd.table_capital, Ucd.to_small, Ucd.table_small.
  destruct (Z.eqb_spec a 0xF1); [lia|].
  destruct (Z.eqb_spec a 0xD2); [lia|].
  cbn [existsb negb andb].
  repeat match goal with
         | |- context [?x =? ?y] => destruct (Z.eqb_spec x y); [lia|]
         end.
  reflexivity.
Qed.

(** C8, where the code departs from it: in the substitution after an
    Indic code point the replacement names the Indic group twice and the
    capital not at all. The Devanagari letter KA followed by "AB" has an
    Indic code point, yet [_clean_indian_script] returns KA, KA, "B": the
    capital "A" is overwritten by a copy of KA instead of being lowered,
    and the capital "B" then stands directly after an Indic code point.
    [clean_transliteration] hands this on. *)
Theorem capital_after_indic_overwritten :
  existsb indian_scripts (u "कAB") = true
  /\ sub_capital_after Ucd.table (u "कAB") = u "ककB"
  /\ _clean_indian_script Ucd.table (u "कAB") = u "ककB"
  /\ nth_error (_clean_indian_script Ucd.table (u "कAB")) 1 = Some 0x915
  /\ indian_scripts 0x915 = true
  /\ nth_error (_clean_indian_script Ucd.table (u "कAB")) 2 = Some 66
  /\ A_Z 66 = true
  /\ _clean_indian_script Ucd.table (u "कA") = u "कक"
  /\ clean_transliteration Ucd.table formatter (u "कAB") "Devanagari"
     = Ok (u "ककB").
Proof. repeat split; vm_compute; reflexivity. Qed.

End CleanIndianFacts.

(** ** Word corrections *)

Module WordCorrectionFacts.
Import Py Formatters PyFacts FormattersFacts StrFacts.

Lemma replace_from_absent old new s :
  contains s old = false -> replace_from old new O s = s.
Proof.
  induction s as [|c r IH]; [reflexivity|].
  cbn [contains replace_from]. intros H.
  apply orb_false_iff in H. destruct H as [H1 H2].
  rewrite H1, IH by exact H2. reflexivity.
Qed.

(** A text without [old] is left as it is. *)
Lemma replace_absent s old new :
  contains s old = false -> replace s old new = s.
Proof.
  destruct old as [|o old]; intros H.
  - destruct s; discriminate H.
  - now apply replace_from_absent.
Qed.

Lemma replace_from_skip old new k : forall rest,
  replace_from old new (List.length k) (k ++ rest) = replace_from old new O rest.
Proof.
  induction k as [|c k IH]; intros rest; [reflexivity|].
  cbn [List.length app replace_from]. apply IH.
Qed.

(** The leftmost occurrence of [old] becomes [new], and the replacement
    goes on after it. *)
Lemma replace_leftmost old new pre post :
  old <> [] ->
  (forall p1 p2, pre = p1 ++ p2 -> p2 <> [] ->
                 startswith (p2 ++ old ++ post) old = false) ->
  replace (pre ++ old ++ post) old new = pre ++ new ++ replace post old new.
Proof.
  destruct old as [|o old]; [congruence|]. intros _. unfold replace.
  induction pre as [|c pre IH]; intros Hfirst.
  - cbn [app]. cbn [replace_from].
    change (o :: old ++ post) with ((o :: old) ++ post).
    rewrite startswith_app. cbn [List.length Nat.pred].
    now rewrite replace_from_skip.
  - pose proof (Hfirst [] (c :: pre) eq_refl ltac:(discriminate)) as Hc.
    cbn [app] in Hc |- *. cbn [replace_from]. rewrite Hc.
    f_equal. apply IH.
    intros p1 p2 -> Hp2. apply (Hfirst (c :: p1) p2 eq_refl Hp2).
Qed.

Section WithUnicode.
Variable U : ucd.

(** Away from capital sigma, lowering goes code point by code point. *)
Lemma do_lower_no_sigma k : Forall (fun c => c <> 0x3A3) k ->
  forall pre post,
  do_lower U pre (k ++ post)
  = flat_map (c_lower U) k ++ do_lower U (rev k ++ pre) post.
Proof.
  induction 1 as [|c k Hc Hk IH]; intros pre post; [reflexivity|].
  cbn [app do_lower flat_map rev]. unfold lower_at at 1.
  destruct (Z.eqb_spec c 0x3A3); [contradiction|].
  rewrite IH, <- !app_assoc. reflexivity.
Qed.

Lemma lower_no_sigma k : Forall (fun c => c <> 0x3A3) k ->
  lower U k = flat_map (c_lower U) k.
Proof.
  intros Hk. unfold lower.
  rewrite <- (app_nil_r k) at 1. rewrite do_lower_no_sigma by exact Hk.
  cbn [do_lower]. apply app_nil_r.
Qed.

Lemma do_lower_occurs k a : Forall (fun c => c <> 0x3A3) k ->
  forall pre post, exists x y,
  do_lower U pre (a ++ k ++ post) = x ++ lower U k ++ y.
Proof.
  intros Hk. induction a as [|c a IH]; intros pre post.
  - exists [], (do_lower U (rev k ++ pre) post).
    cbn [app]. now rewrite do_lower_no_sigma, lower_no_sigma.
  - destruct (IH (c :: pre) post) as [x [y H]].
    exists (lower_at U pre c (a ++ k ++ post) ++ x), y.
    change (do_lower U pre ((c :: a) ++ k ++ post))
      with (lower_at U pre c (a ++ k ++ post)
              ++ do_lower U (c :: pre) (a ++ k ++ post)).
    now rewrite H, <- app_assoc.
Qed.

(** An exact occurrence of a key without capital sigma is also found by
    the case-insensitive look-up. *)
Lemma lower_occurs text k : Forall (fun c => c <> 0x3A3) k ->
  contains text k = true -> contains (lower U text) (lower U k) = true.
Proof.
  intros Hk H. apply contains_iff in H. destruct H as [a [b ->]].
  apply contains_iff. unfold lower at 1. now apply do_lower_occurs.
Qed.

Lemma word_corrections_no_sigma kv :
  In kv (word_corrections formatter) ->
  Forall (fun c => c <> 0x3A3) (fst kv).
Proof.
  intros Hin.
  assert (H : forallb (fun kv => forallb (fun c => negb (c =? 0x3A3)) (fst kv))
                      (word_corrections formatter) = true)
    by (vm_compute; reflexivity).
  rewrite forallb_forall in H. apply H in Hin.
  rewrite forallb_forall in Hin. apply Forall_forall. intros c Hc.
  apply Hin in Hc. apply negb_true_iff in Hc. now apply Z.eqb_neq.
Qed.

Lemma word_correction_step_absent text kv :
  contains text (fst kv) = false -> word_correction_step U text kv = text.
Proof.
  destruct kv as [incorrect correct]. cbn [fst word_correction_step].
  intros H. rewrite (replace_absent _ _ correct H).
  now destruct (contains (lower U text) (lower U incorrect)).
Qed.

Lemma word_corrections_absent table : forall text,
  (forall kv, In kv table -> contains text (fst kv) = false) ->
  fold_left (word_correction_step U) table text = text.
Proof.
  induction table as [|kv table IH]; intros text H; [reflexivity|].
  cbn [fold_left]. rewrite word_correction_step_absent by (apply H; now left).
  apply IH. intros kv' Hin. apply H. now right.
Qed.

Lemma all_absent text (table : dict str str) :
  forallb (fun kv => negb (contains text (fst kv))) table = true ->
  forall kv, In kv table -> contains text (fst kv) = false.
Proof.
  intros H kv Hin. rewrite forallb_forall in H. apply H in Hin.
  now apply negb_true_iff.
Qed.

(** The loop over the correction table on the text "dIpAvalI". *)
Lemma word_corrections_dIpAvalI :
  fold_left (word_correction_step U) (word_corrections formatter)
            (u "dIpAvalI") = u "Deepavali".
Proof.
  change (word_corrections formatter)
    with ([(u "dIpòvaLi", u "Deepavali"); (u "dīpòvaḻi", u "Deepavali")]
            ++ [(u "dIpAvalI", u "Deepavali")]
            ++ skipn 3 (word_corrections formatter)).
  rewrite !fold_left_app.
  rewrite (word_corrections_absent [_; _])
    by (apply all_absent; vm_compute; reflexivity).
  cbn [fold_left].
  replace (word_correction_step U (u "dIpAvalI") (u "dIpAvalI", u "Deepavali"))
    with (u "Deepavali") by (vm_compute; reflexivity).
  apply word_corrections_absent, all_absent. vm_compute. reflexivity.
Qed.
End WithUnicode.

(** C9: for every entry of [word_corrections], the step of the loop
    returns the text unchanged when the key is not found case-insensitively,
    and also when it only matches case-insensitively; when the exact key
    occurs, the look-up succeeds and the step is the case-sensitive
    [str.replace], which turns the leftmost exact occurrence into the
    canonical form and goes on after it. "DIPAVALI" passes the whole table
    unchanged, and "dIpAvalI" normalises to "Deepavali" for the Roman
    target. *)
Theorem word_correction_asymmetry U incorrect correct text :
  In (incorrect, correct) (word_corrections formatter) ->
  (contains (lower U text) (lower U incorrect) = false ->
   word_correction_step U text (incorrect, correct) = text)
  /\ (contains text incorrect = false ->
      word_correction_step U text (incorrect, correct) = text)
  /\ (contains text incorrect = true ->
      contains (lower U text) (lower U incorrect) = true
      /\ word_correction_step U text (incorrect, correct)
         = replace text incorrect correct)
  /\ (forall pre post,
      (forall p1 p2, pre = p1 ++ p2 -> p2 <> [] ->
                     startswith (p2 ++ incorrect ++ post) incorrect = false) ->
      word_correction_step U (pre ++ incorrect ++ post) (incorrect, correct)
      = pre ++ correct ++ replace post incorrect correct)
  /\ fold_left (word_correction_step U) (word_corrections formatter)
               (u "DIPAVALI") = u "DIPAVALI"
  /\ clean_transliteration U formatter (u "dIpAvalI") "ITRANS"
     = Ok (u "Deepavali")
  /\ clean_transliteration U formatter (u "dIpAvalI") "roman"
     = Ok (u "Deepavali").
Proof.
  intros Hin.
  pose proof (word_corrections_no_sigma (incorrect, correct) Hin) as Hkey.
  cbn [fst] in Hkey.
  assert (Hfound : forall t, contains t incorrect = true ->
            word_correction_step U t (incorrect, correct)
            = replace t incorrect correct).
  { intros t Ht. cbn [word_correction_step].
    now rewrite (lower_occurs U t incorrect Hkey Ht). }
  assert (Hne : incorrect <> []).
  { intros ->.
    assert (H : forallb (fun kv => match fst kv with [] => false | _ => true end)
                        (word_corrections formatter) = true)
      by (vm_compute; reflexivity).
    rewrite forallb_forall in H. apply H in Hin. discriminate Hin. }
  split; [|split; [|split; [|split; [|split; [|split]]]]].
  - intros H. cbn [word_correction_step]. now rewrite H.
  - intros H. now apply (word_correction_step_absent U text (incorrect, correct)).
  - intros H. split; [now apply lower_occurs | now apply Hfound].
  - intros pre post Hfirst. rewrite Hfound.
    + now apply replace_leftmost.
    + apply contains_iff. now exists pre, post.
  - apply word_corrections_absent, all_absent. vm_compute. reflexivity.
  - unfold clean_transliteration, clean_roman_text.
    rewrite word_corrections_dIpAvalI. vm_compute. reflexivity.
  - unfold clean_transliteration, clean_roman_text.
    rewrite word_corrections_dIpAvalI. vm_compute. reflexivity.
Qed.

Lemma word_correction_asymmetry_witness :
  word_correction_step Ucd.table (u "shubh dIpAvalI")
                       (u "dIpAvalI", u "Deepavali") = u "shubh Deepavali"
  /\ word_correction_step Ucd.table (u "shubh DIPAVALI")
                          (u "dIpAvalI", u "Deepavali") = u "shubh DIPAVALI".
Proof.
  destruct (word_correction_asymmetry Ucd.table (u "dIpAvalI") (u "Deepavali")
              (u "shubh DIPAVALI")) as [_ [H2 _]].
  - cbn [word_corrections formatter]. do 2 right. left. reflexivity.
  - split; [vm_compute; reflexivity|]. apply H2. vm_compute. reflexivity.
Defined.
End WordCorrectionFacts.

(** ** The branch test *)

Module ScriptBranchFacts.
Import Py Formatters PyFacts.

(** C1, where the code departs from it: the text "R" followed by the
    Bengali letter KA has a code point of the eight blocks, yet the branch
    test is false on it and [clean_transliteration] returns it unchanged,
    where [_clean_indian_script] would lower the capital, as happens for the
    same text with the Devanagari letter KA. *)
Theorem bengali_text_takes_roman_branch :
  existsb indian_scripts (u "Rক") = true
  /\ is_indian_script (u "Rক") = false
  /\ clean_transliteration Ucd.table formatter (u "Rক") "Bengali"
     = Ok (u "Rক")
  /\ _clean_indian_script Ucd.table (u "Rক") = u "rক"
  /\ is_indian_script (u "Rक") = true
  /\ clean_transliteration Ucd.table formatter (u "Rक") "Devanagari"
     = Ok (u "rक").
Proof. repeat split; vm_compute; reflexivity. Qed.

(** The branch test is decided for every text by the five blocks it
    names. *)
Lemma is_indian_script_iff text :
  is_indian_script text = true <->
  exists c, In c text /\
    (0x0900 <= c <= 0x097f \/ 0x0c00 <= c <= 0x0c7f \/ 0x0b80 <= c <= 0x0bff
     \/ 0x0c80 <= c <= 0x0cff \/ 0x0a80 <= c <= 0x0aff).
Proof.
  unfold is_indian_script. rewrite !orb_true_iff, !existsb_exists. split.
  - intros [[[[[c [Hc H]]|[c [Hc H]]]|[c [Hc H]]]|[c [Hc H]]]|[c [Hc H]]];
      apply in_range_iff in H; exists c; tauto.
  - intros [c [Hc [H|[H|[H|[H|H]]]]]]; apply in_range_iff in H; eauto 10.
Qed.
End ScriptBranchFacts.

(** ** Running the normaliser twice *)

Module IdempotenceFacts.
Import Py Formatters PyFacts FormattersFacts StrFacts NormalizerFacts
       WordCorrectionFacts.

Lemma startswith_nil s : startswith s [] = true.
Proof. now destruct s. Qed.

Lemma contains_single s k : contains s [k] = existsb (Z.eqb k) s.
Proof.
  induction s as [|c r IH]; [reflexivity|].
  cbn [contains existsb startswith].
  now rewrite IH, startswith_nil, andb_true_r.
Qed.

(** Replacing a code point by a text without it removes it. *)
Lemma replace_removes s k new :
  existsb (Z.eqb k) new = false ->
  existsb (Z.eqb k) (replace s [k] new) = false.
Proof.
  intros Hnew. unfold replace.
  induction s as [|c r IH]; [reflexivity|].
  cbn [replace_from startswith].
  change (Nat.pred (List.length [k])) with O.
  rewrite startswith_nil, andb_true_r.
  unfold char in *. destruct (k =? c) eqn:Hkc.
  - rewrite existsb_app, IH. now rewrite Hnew.
  - cbn [existsb]. now rewrite IH, Hkc.
Qed.

Lemma fold_replace_absent (table : dict str str) : forall s,
  (forall kv, In kv table -> contains s (fst kv) = false) ->
  fold_left (fun text kv => replace text (fst kv) (snd kv)) table s = s.
Proof.
  induction table as [|kv table IH]; intros s H; [reflexivity|].
  cbn [fold_left]. rewrite replace_absent by (apply H; now left).
  apply IH. intros kv' Hin. apply H. now right.
Qed.

Lemma fold_replace_keeps_absent (P : char -> bool) (table : dict str str) s :
  existsb P s = false ->
  (forall kv, In kv table -> existsb P (snd kv) = false) ->
  existsb P (fold_left (fun text kv => replace text (fst kv) (snd kv))
                       table s) = false.
Proof.
  intros Hs Hv. apply not_true_is_false. intros H.
  apply existsb_fold_replace in H. destruct H as [H|[kv [Hin H]]].
  - congruence.
  - rewrite Hv in H by exact Hin. discriminate H.
Qed.

(** A table of single code points whose replacements hold none of them
    leaves none of them in the text. *)
Lemma fold_replace_clears (table : dict str str) k :
  (forall kv, In kv table -> existsb (Z.eqb k) (snd kv) = false) ->
  forall s,
  (exists v, In ([k], v) table) ->
  existsb (Z.eqb k)
          (fold_left (fun text kv => replace text (fst kv) (snd kv))
                     table s) = false.
Proof.
  intros Hv. induction table as [|kv table IH]; intros s [v Hin];
    [destruct Hin|].
  cbn [fold_left]. destruct Hin as [->|Hin].
  - cbn [fst snd]. apply fold_replace_keeps_absent.
    + apply replace_removes. apply (Hv ([k], v)). now left.
    + intros kv' Hin'. apply Hv. now right.
  - apply IH; [intros kv' Hin'; apply Hv; now right | eauto].
Qed.

Section WithUnicode.
Variable U : ucd.

(** *** [' '.join(s.split())] is idempotent *)

Lemma split_from_no_space s : forall acc w,
  no_space U acc = true -> In w (split_from U acc s) -> no_space U w = true.
Proof.
  induction s as [|c r IH]; intros acc w Hacc; cbn [split_from].
  - destruct acc; [intros []|]. now intros [<-|[]].
  - destruct (c_isspace U c) eqn:Hc.
    + destruct acc as [|a acc].
      * now apply IH.
      * intros [<-|Hin]; [exact Hacc | now apply (IH [] w)].
    + apply IH. unfold no_space. rewrite forallb_app. cbn [forallb].
      unfold no_space in Hacc. now rewrite Hacc, Hc.
Qed.

Lemma split_from_word w : forall acc rest,
  no_space U w = true ->
  split_from U acc (w ++ rest) = split_from U (acc ++ w) rest.
Proof.
  induction w as [|c w IH]; intros acc rest Hw.
  - now rewrite app_nil_r.
  - unfold no_space in Hw; cbn [forallb] in Hw. apply andb_true_iff in Hw.
    destruct Hw as [Hc Hw]. apply negb_true_iff in Hc.
    cbn [app split_from]. rewrite Hc, IH by exact Hw.
    now rewrite <- app_assoc.
Qed.

Lemma space_isspace : c_isspace U 32 = true.
Proof. reflexivity. Qed.

Lemma split_join ws :
  Forall (fun w => w <> [] /\ no_space U w = true) ws ->
  split U (join [32] ws) = ws.
Proof.
  unfold split. induction 1 as [|w ws [Hne Hw] Hws IH]; [reflexivity|].
  cbn [join]. destruct ws as [|w' ws'].
  - rewrite <- (app_nil_r w) at 1. rewrite split_from_word by exact Hw.
    cbn [app split_from]. destruct w; [contradiction | reflexivity].
  - rewrite split_from_word by exact Hw. cbn [app split_from].
    rewrite space_isspace, IH. destruct w; [contradiction | reflexivity].
Qed.

Lemma join_split_idempotent s :
  join (u " ") (split U (join (u " ") (split U s)))
  = join (u " ") (split U s).
Proof.
  rewrite u_space. f_equal. apply split_join.
  apply Forall_forall. intros w Hw. split.
  - eapply split_nonempty, Hw.
  - eapply split_from_no_space; [|exact Hw]. reflexivity.
Qed.

(** *** The non-Indic branch without English formatting *)


(** Every key of [character_replacements] is one code point, not the
    space, and occurs in no replacement of the table. *)
Lemma character_replacements_keys kv :
  In kv (character_replacements formatter) ->
  exists k, fst kv = [k] /\ k <> 32
            /\ forall kv', In kv' (character_replacements formatter) ->
                           existsb (Z.eqb k) (snd kv') = false.
Proof.
  intros Hin.
  assert (H : forallb
                (fun kv =>
                   match fst kv with
                   | [k] =>
                     negb (k =? 32)
                     && forallb (fun kv' => negb (existsb (Z.eqb k) (snd kv')))
                                (character_replacements formatter)
                   | _ => false
                   end) (character_replacements formatter) = true)
    by (vm_compute; reflexivity).
  rewrite forallb_forall in H. apply H in Hin.
  destruct kv as [[|k [|k' r]] v]; cbn [fst] in Hin |- *;
    try discriminate Hin.
  apply andb_true_iff in Hin. destruct Hin as [H32 Hvals].
  exists k. split; [reflexivity|]. split.
  - apply negb_true_iff in H32. now apply Z.eqb_neq.
  - intros kv' Hin'. rewrite forallb_forall in Hvals.
    apply Hvals in Hin'. now apply negb_true_iff.
Qed.

Lemma clean_roman_text_eq text :
  is_indian_script text = false ->
  clean_roman_text U formatter text
  = fold_left (fun text kv => replace text (fst kv) (snd kv))
              (character_replacements formatter)
              (fold_left (word_correction_step U) (word_corrections formatter)
                         text).
Proof.
  intros H. unfold clean_roman_text.
  now rewrite (has_indian_script_after_corrections U text H), andb_false_r.
Qed.

Lemma clean_transliteration_roman_branch self text target_script :
  is_indian_script text = false ->
  is_roman_target target_script = false ->
  clean_transliteration U self text target_script
  = Ok (match text with
        | [] => []
        | _ => join (u " ") (split U (clean_roman_text U self text))
        end).
Proof.
  intros Hi Hr. unfold clean_transliteration.
  destruct text as [|c r]; [reflexivity|]. now rewrite Hi, Hr.
Qed.



End WithUnicode.

Lemma Ok_inj {A : Type} (a b : A) : Ok a = Ok b -> a = b.
Proof. intros H. now injection H. Qed.



End IdempotenceFacts.

(** ** Whitespace and the shape of a cleaned text *)

Module WhitespaceFacts.
Import Py Formatters PyFacts FormattersFacts StrFacts IdempotenceFacts.

Lemma filter_join (P : char -> bool) sep l :
  filter P sep = [] -> filter P (join sep l) = filter P (List.concat l).
Proof.
  intros Hsep. induction l as [|s [|s' l] IH]; [reflexivity | |].
  - cbn [join List.concat]. now rewrite app_nil_r.
  - change (join sep (s :: s' :: l)) with (s ++ sep ++ join sep (s' :: l)).
    cbn [List.concat] in IH |- *. unfold str, char in *.
    now rewrite !filter_app, IH, Hsep, filter_app.
Qed.

Section WithUnicode.
Variable U : ucd.

Lemma split_from_concat s : forall w,
  List.concat (split_from U w s) = w ++ filter (not_space U) s.
Proof.
  induction s as [|c r IH]; intros w; cbn [split_from filter].
  - destruct w; [reflexivity|]. cbn [List.concat]. now rewrite app_nil_r.
  - unfold not_space at 1. destruct (c_isspace U c); cbn [negb].
    + destruct w; [apply IH|]. cbn [List.concat]. now rewrite IH.
    + rewrite IH, <- app_assoc. reflexivity.
Qed.

Lemma split_words s :
  Forall (fun w => w <> [] /\ no_space U w = true) (split U s).
Proof.
  apply Forall_forall. intros w Hw. split.
  - eapply split_nonempty, Hw.
  - eapply split_from_no_space; [|exact Hw]. reflexivity.
Qed.

Lemma filter_nonspace_collapse s :
  filter (not_space U) (join (u " ") (split U s)) = filter (not_space U) s.
Proof.
  rewrite filter_join by reflexivity.
  unfold split. rewrite split_from_concat. cbn [app].
  induction s as [|c r IH]; [reflexivity|].
  cbn [filter]. destruct (not_space U c) eqn:E; [|exact IH].
  cbn [filter]. now rewrite E, IH.
Qed.

Lemma no_neighbours_no_space w : forall t,
  no_space U w = true ->
  no_neighbours (fun a b => c_isspace U a && c_isspace U b) t ->
  no_neighbours (fun a b => c_isspace U a && c_isspace U b) (w ++ t).
Proof.
  induction w as [|x w IH]; intros t Hw Ht; [exact Ht|].
  unfold no_space in Hw. cbn [forallb] in Hw.
  apply andb_true_iff in Hw. destruct Hw as [Hx Hw].
  apply negb_true_iff in Hx. cbn [app].
  apply CleanIndianFacts.no_neighbours_cons; [|now apply IH].
  intros b. now rewrite Hx.
Qed.

(** What a text joined from non-empty words without whitespace looks
    like. *)
Lemma join_words_spaces ws :
  Forall (fun w => w <> [] /\ no_space U w = true) ws ->
  (forall c, In c (join [32] ws) -> c_isspace U c = true -> c = 32)
  /\ no_neighbours (fun a b => c_isspace U a && c_isspace U b) (join [32] ws)
  /\ (forall c, hd_error (join [32] ws) = Some c -> c_isspace U c = false)
  /\ (forall t c, join [32] ws = t ++ [c] -> c_isspace U c = false).
Proof.
  induction 1 as [|w ws [Hne Hw] Hws IH].
  - split; [intros c []|]. split; [exact I|]. split.
    + intros c H. discriminate H.
    + intros t c H. destruct t; discriminate H.
  - destruct IH as [IHa [IHb [IHc IHd]]].
    assert (Hin : forall c, In c w -> c_isspace U c = false).
    { intros c Hc. unfold no_space in Hw. rewrite forallb_forall in Hw.
      apply Hw in Hc. now apply negb_true_iff. }
    destruct ws as [|w' ws'].
    + cbn [join]. repeat split.
      * intros c Hc Hs. rewrite Hin in Hs by exact Hc. discriminate Hs.
      * rewrite <- (app_nil_r w). now apply no_neighbours_no_space.
      * intros c Hc. destruct w as [|x w]; [contradiction|].
        injection Hc as <-. apply Hin. now left.
      * intros t c E. apply Hin. rewrite E, in_app_iff. right. now left.
    + change (join [32] (w :: w' :: ws'))
        with (w ++ 32 :: join [32] (w' :: ws')).
      set (rest := join [32] (w' :: ws')) in *.
      assert (Hrest : exists d rest', rest = d :: rest'
                                      /\ c_isspace U d = false).
      { inversion Hws as [|? ? [Hne' _] _]; subst.
        destruct w' as [|d w'']; [contradiction|].
        destruct (rest) as [|d' rest'] eqn:E.
        - subst rest. destruct ws'; discriminate E.
        - exists d', rest'. split; [reflexivity|]. apply IHc. reflexivity. }
      destruct Hrest as [d [rest' [Erest Hd]]].
      repeat split.
      * intros c Hc Hs. rewrite in_app_iff in Hc.
        destruct Hc as [Hc|[<-|Hc]]; [|reflexivity | now apply IHa].
        rewrite Hin in Hs by exact Hc. discriminate Hs.
      * apply no_neighbours_no_space; [exact Hw|].
        rewrite Erest in IHb |- *. split; [|exact IHb].
        cbv beta. rewrite Hd. apply andb_false_r.
      * intros c Hc. destruct w as [|x w]; [contradiction|].
        injection Hc as <-. apply Hin. now left.
      * intros t c E.
        assert (El : last (w ++ 32 :: rest) 0 = last rest 0).
        { rewrite Erest. clear. induction w as [|x w IHw].
          - reflexivity.
          - cbn [app]. rewrite <- IHw. cbn [last].
            destruct (w ++ 32 :: d :: rest') eqn:E'; [|reflexivity].
            now destruct w. }
        rewrite E, last_last in El.
        destruct (exists_last (l := rest)) as [t' [c' E']];
          [rewrite Erest; discriminate|].
        rewrite E', last_last in El. subst c'. now apply (IHd t').
Qed.

Lemma clean_transliteration_collapsed self text target_script :
  exists x, clean_transliteration U self text target_script
            = Ok (join (u " ") (split U x)).
Proof.
  unfold clean_transliteration. destruct text as [|c r]; [now exists []|].
  destruct (is_indian_script (c :: r)); cbn [bind]; [eauto|].
  destruct (is_roman_target target_script); cbn [bind]; [|eauto].
  destruct (_format_for_english_ok U self (clean_roman_text U self (c :: r)))
    as [t ->].
  cbn [bind]. eauto.
Qed.

Lemma collapsed_normal_form x :
  let t := join (u " ") (split U x) in
  join (u " ") (split U t) = t
  /\ (forall c, In c t -> c_isspace U c = true -> c = 32)
  /\ no_neighbours (fun a b => c_isspace U a && c_isspace U b) t
  /\ (forall c, hd_error t = Some c -> c_isspace U c = false)
  /\ (forall t' c, t = t' ++ [c] -> c_isspace U c = false).
Proof.
  cbv zeta. split; [apply join_split_idempotent|].
  rewrite u_space. apply join_words_spaces, split_words.
Qed.

End WithUnicode.

(** X1: [_format_for_english] and [clean_transliteration] return for every
    text, target and tables: the indexing [word[0]], the one operation of
    theirs that can raise, only meets the non-empty words of [split()]. *)
Theorem clean_transliteration_never_raises U self :
  (forall text, exists t, _format_for_english U self text = Ok t)
  /\ (forall text target_script,
      exists t, clean_transliteration U self text target_script = Ok t).
Proof.
  split.
  - apply _format_for_english_ok.
  - apply clean_transliteration_ok.
Qed.

(** X2: What [clean_transliteration] returns is whitespace-normalised: it is
    a fixed point of [' '.join(s.split())], its only whitespace code point
    is the space, no two spaces are adjacent, and it neither starts nor
    ends with one. *)
Theorem clean_transliteration_whitespace_normal U self text target_script
    cleaned :
  clean_transliteration U self text target_script = Ok cleaned ->
  join (u " ") (split U cleaned) = cleaned
  /\ (forall c, In c cleaned -> c_isspace U c = true -> c = 32)
  /\ no_neighbours (fun a b => c_isspace U a && c_isspace U b) cleaned
  /\ (forall c, hd_error cleaned = Some c -> c_isspace U c = false)
  /\ (forall t c, cleaned = t ++ [c] -> c_isspace U c = false).
Proof.
  intros H.
  destruct (clean_transliteration_collapsed U self text target_script)
    as [x Hx].
  rewrite Hx in H. apply Ok_inj in H. subst cleaned.
  apply collapsed_normal_form.
Qed.

Lemma clean_transliteration_whitespace_normal_witness :
  clean_transliteration Ucd.table formatter (u "  rAma   sItA ") "Tamil"
  = Ok (u "rama sita")
  /\ join (u " ") (split Ucd.table (u "rama sita")) = u "rama sita".
Proof.
  assert (H : clean_transliteration Ucd.table formatter (u "  rAma   sItA ")
                                    "Tamil" = Ok (u "rama sita"))
    by (vm_compute; reflexivity).
  split; [exact H|].
  exact (proj1 (clean_transliteration_whitespace_normal Ucd.table formatter
                  (u "  rAma   sItA ") "Tamil" (u "rama sita") H)).
Defined.

(** X3: The text both views extract keeps every code point of the OCR
    results that is not whitespace, in order, and adds none; it is
    whitespace-normalised as well. *)
Theorem extract_text_keeps_non_whitespace U texts :
  filter (not_space U) (Views.extract_text U texts)
  = filter (not_space U) (List.concat texts)
  /\ join (u " ") (split U (Views.extract_text U texts))
     = Views.extract_text U texts
  /\ (forall c, In c (Views.extract_text U texts) ->
      c_isspace U c = true -> c = 32).
Proof.
  unfold Views.extract_text. split; [|split].
  - rewrite filter_nonspace_collapse. now apply filter_join.
  - apply join_split_idempotent.
  - apply (collapsed_normal_form U (join (u " ") texts)).
Qed.

(** X4: A text with a code point of one of the five blocks that
    [clean_transliteration] tests is returned, whatever the target and
    the tables, as [_clean_indian_script] leaves it, with whitespace
    collapsed: no word correction, character replacement or English
    formatting is applied. Where Indic code points are their own lower
    case, [_clean_indian_script] keeps the length and every code point
    outside [[A-Z]] in place; a capital is left, lowered, or overwritten
    by an Indic code point, and none is left directly before an Indic
    code point. *)
Theorem indic_text_repaired U self text target_script :
  (forall a, indian_scripts a = true -> lower U [a] = [a]) ->
  is_indian_script text = true ->
  exists cleaned,
    clean_transliteration U self text target_script = Ok cleaned
    /\ cleaned = join (u " ") (split U (_clean_indian_script U text))
    /\ filter (not_space U) cleaned
       = filter (not_space U) (_clean_indian_script U text)
    /\ repaired text (_clean_indian_script U text)
    /\ no_neighbours capital_before (_clean_indian_script U text).
Proof.
  intros Hlower Hi. eexists. split; [|split; [reflexivity|split]].
  - unfold clean_transliteration. destruct text as [|c r]; [discriminate Hi|].
    rewrite Hi. reflexivity.
  - apply filter_nonspace_collapse.
  - apply (CleanIndianFacts._clean_indian_script_repaired U Hlower).
Qed.

Lemma indic_text_repaired_witness :
  exists cleaned,
    clean_transliteration Ucd.table formatter (u "dIpAvalI  कAB R") "ITRANS"
    = Ok cleaned
    /\ cleaned = u "dIpAvalI ककB r".
Proof.
  destruct (indic_text_repaired Ucd.table formatter (u "dIpAvalI  कAB R")
              "ITRANS") as [cleaned [H1 [H2 _]]].
  - apply CleanIndianFacts.table_indic_lower.
  - vm_compute. reflexivity.
  - exists cleaned. split; [exact H1|]. rewrite H2. vm_compute. reflexivity.
Defined.
End WhitespaceFacts.

(** ** Texts the tables do not touch *)

Module TableFacts.
Import Py Formatters PyFacts FormattersFacts StrFacts NormalizerFacts
       WordCorrectionFacts IdempotenceFacts.

Lemma contains_In s k c : contains s k = true -> In c k -> In c s.
Proof.
  intros H Hc. apply contains_iff in H. destruct H as [a [b ->]].
  rewrite !in_app_iff. tauto.
Qed.

Lemma plain_without_key text key :
  forallb plain text = true ->
  existsb (fun c => negb (plain c)) key = true ->
  contains text key = false.
Proof.
  intros Ht Hk. apply not_true_is_false. intros H.
  apply existsb_exists in Hk. destruct Hk as [c [Hc Hp]].
  rewrite forallb_forall in Ht.
  rewrite (Ht c (contains_In _ _ _ H Hc)) in Hp. discriminate Hp.
Qed.

Lemma tables_keys_not_plain kv :
  In kv (word_corrections formatter)
  \/ In kv (character_replacements formatter)
  \/ In kv (vowel_length_mappings formatter) ->
  existsb (fun c => negb (plain c)) (fst kv) = true.
Proof.
  intros Hin.
  assert (H : forallb (fun kv => existsb (fun c => negb (plain c)) (fst kv))
                      (word_corrections formatter
                         ++ character_replacements formatter
                         ++ vowel_length_mappings formatter) = true)
    by (vm_compute; reflexivity).
  rewrite forallb_forall in H. apply H. rewrite !in_app_iff. exact Hin.
Qed.

Lemma plain_not_indian text :
  forallb plain text = true -> is_indian_script text = false.
Proof.
  intros Ht. apply not_true_is_false. intros H.
  apply ScriptBranchFacts.is_indian_script_iff in H.
  destruct H as [c [Hc Hr]]. rewrite forallb_forall in Ht.
  apply Ht in Hc. unfold plain in Hc. apply andb_true_iff in Hc.
  destruct Hc as [Hc _]. apply Z.ltb_lt in Hc. lia.
Qed.

Section WithUnicode.
Variable U : ucd.

Lemma plain_clean_roman_text text :
  forallb plain text = true -> clean_roman_text U formatter text = text.
Proof.
  intros Ht. rewrite clean_roman_text_eq by now apply plain_not_indian.
  rewrite word_corrections_absent.
  - apply fold_replace_absent. intros kv Hin.
    apply plain_without_key; [exact Ht|]. apply tables_keys_not_plain. tauto.
  - intros kv Hin.
    apply plain_without_key; [exact Ht|]. apply tables_keys_not_plain. tauto.
Qed.
End WithUnicode.

(** X6: A text of ASCII code points without the capitals [A-Z] is returned,
    for every target that is not a Roman one, with its whitespace
    collapsed and nothing else changed: no word correction and no
    character replacement applies to it. *)
Theorem plain_text_passes_through U text target_script :
  forallb plain text = true ->
  is_roman_target target_script = false ->
  clean_transliteration U formatter text target_script
  = Ok (join (u " ") (split U text)).
Proof.
  intros Ht Hr.
  rewrite clean_transliteration_roman_branch;
    [|now apply plain_not_indian | exact Hr].
  rewrite plain_clean_roman_text by exact Ht.
  now destruct text.
Qed.

Lemma plain_text_passes_through_witness :
  clean_transliteration Ucd.table formatter (u "dipavali  ke 2 din") "Tamil"
  = Ok (join (u " ") (split Ucd.table (u "dipavali  ke 2 din"))).
Proof.
  apply (plain_text_passes_through Ucd.table (u "dipavali  ke 2 din")
           "Tamil").
  - vm_compute. reflexivity.
  - vm_compute. reflexivity.
Defined.

Section DeadEntries.
Variable U : ucd.

(** After the character clean-up the text holds neither U+1E5B nor
    U+1E5D. *)
Lemma cleaned_without_r_dot text k :
  k = 0x1E5B \/ k = 0x1E5D ->
  existsb (Z.eqb k) (clean_roman_text U formatter text) = false.
Proof.
  intros Hk. unfold clean_roman_text.
  assert (Hin : exists v, In ([k], v) (character_replacements formatter)).
  { destruct Hk as [-> | ->]; exists (u "r"); vm_compute; tauto. }
  destruct Hin as [v Hin].
  destruct (character_replacements_keys ([k], v) Hin) as [k' [E [_ Hvals]]].
  cbn [fst] in E. injection E as <-.
  apply fold_replace_clears; [exact Hvals | now exists v].
Qed.

Lemma _format_for_english_r_dot v1 v2 text :
  existsb (Z.eqb 0x1E5B) text = false ->
  existsb (Z.eqb 0x1E5D) text = false ->
  _format_for_english U
    (with_vowel_length_mappings formatter
       [(u "ī", u "ee"); (u "ā", u "aa"); (u "ū", u "uu"); (u "ē", u "ee");
        (u "ō", u "oo"); (u "ṛ", v1); (u "ṝ", v2)]) text
  = _format_for_english U
      (with_vowel_length_mappings formatter
         [(u "ī", u "ee"); (u "ā", u "aa"); (u "ū", u "uu"); (u "ē", u "ee");
          (u "ō", u "oo")]) text.
Proof.
  intros H1 H2. unfold _format_for_english.
  cbn [vowel_length_mappings with_vowel_length_mappings].
  change [(u "ī", u "ee"); (u "ā", u "aa"); (u "ū", u "uu"); (u "ē", u "ee");
          (u "ō", u "oo"); (u "ṛ", v1); (u "ṝ", v2)]
    with ([(u "ī", u "ee"); (u "ā", u "aa"); (u "ū", u "uu"); (u "ē", u "ee");
           (u "ō", u "oo")] ++ [(u "ṛ", v1); (u "ṝ", v2)]).
  rewrite fold_left_app.
  set (z := fold_left (fun text kv => replace text (fst kv) (snd kv))
                      [(u "ī", u "ee"); (u "ā", u "aa"); (u "ū", u "uu");
                       (u "ē", u "ee"); (u "ō", u "oo")] text).
  assert (Hz : forall k, existsb (Z.eqb k) text = false -> 128 <= k ->
                         existsb (Z.eqb k) z = false).
  { intros k Hk Hlo. apply fold_replace_keeps_absent; [exact Hk|].
    intros kv Hin. cbn [In] in Hin.
    repeat (destruct Hin as [<-|Hin];
            [apply not_true_is_false; intros H;
             apply existsb_exists in H; destruct H as [c [Hc E]];
             apply Z.eqb_eq in E; subst c; vm_compute in Hc;
             repeat (destruct Hc as [Hc|Hc]; [lia|]); exact Hc|]).
    contradiction. }
  cbn [fold_left fst snd].
  change (u "ṛ") with [0x1E5B]. change (u "ṝ") with [0x1E5D].
  rewrite (replace_absent z [0x1E5B])
    by (rewrite contains_single; apply Hz; [exact H1 | lia]).
  rewrite (replace_absent z [0x1E5D])
    by (rewrite contains_single; apply Hz; [exact H2 | lia]).
  reflexivity.
Qed.
End DeadEntries.

(** X7: The entries of [vowel_length_mappings] for U+1E5B and U+1E5D (to
    "ri") never apply in [clean_transliteration]: the character clean-up
    has already turned both into "r", so the result is the same whatever
    replacement the two entries hold. *)
Theorem r_dot_vowel_entries_never_apply U text target_script v1 v2 :
  clean_transliteration U
    (with_vowel_length_mappings formatter
       [(u "ī", u "ee"); (u "ā", u "aa"); (u "ū", u "uu"); (u "ē", u "ee");
        (u "ō", u "oo"); (u "ṛ", v1); (u "ṝ", v2)]) text target_script
  = clean_transliteration U formatter text target_script.
Proof.
  unfold clean_transliteration. destruct text as [|c r]; [reflexivity|].
  destruct (is_indian_script (c :: r)); [reflexivity|].
  change (clean_roman_text U (with_vowel_length_mappings formatter _) (c :: r))
    with (clean_roman_text U formatter (c :: r)).
  destruct (is_roman_target target_script); [|reflexivity].
  rewrite _format_for_english_r_dot
    by (apply cleaned_without_r_dot; tauto).
  change (_format_for_english U formatter)
    with (_format_for_english U
            (with_vowel_length_mappings formatter
               [(u "ī", u "ee"); (u "ā", u "aa"); (u "ū", u "uu");
                (u "ē", u "ee"); (u "ō", u "oo"); (u "ṛ", u "ri");
                (u "ṝ", u "ri")])).
  rewrite (_format_for_english_r_dot U (u "ri") (u "ri"))
    by (apply cleaned_without_r_dot; tauto).
  reflexivity.
Qed.
End TableFacts.

(** ** A second pass of the Indic clean-up *)

Module IndicSecondPassFacts.
Import Py Formatters PyFacts CleanIndianFacts.

Section WithUnicode.
Variable U : ucd.

(** An Indic code point followed by two capitals: the first capital is
    overwritten, the second is left. *)
Lemma clean_indian_script_first_pass a c d :
  indian_scripts a = true -> A_Z c = true -> A_Z d = true ->
  lower U [a] = [a] -> c_isalnum U a = true ->
  _clean_indian_script U [a; c; d] = [a; a; d].
Proof.
  intros Ha Hc Hd Hlow Hword.
  pose proof (indian_scripts_not_A_Z a Ha) as Hna.
  pose proof (A_Z_not_indian c Hc) as Hnc.
  pose proof (A_Z_not_indian d Hd) as Hnd.
  unfold _clean_indian_script.
  assert (E1 : sub_capital_before U [a; c; d] = [a; c; d]).
  { cbn [sub_capital_before]. now rewrite Hna, Hnd, andb_false_r. }
  rewrite E1.
  assert (E2 : sub_capital_after U [a; c; d] = [a; a; d]).
  { cbn [sub_capital_after]. rewrite Ha, Hc, Hlow. reflexivity. }
  rewrite E2.
  assert (E3 : sub_capital_between U [a; a; d] = [a; a; d]).
  { cbn [sub_capital_between]. now rewrite Hna, andb_false_r. }
  rewrite E3.
  cbn [sub_standalone_capital hd_error word_char].
  rewrite Hna, Hword, Hd. cbn [andb orb negb app]. reflexivity.
Qed.

Lemma clean_indian_script_second_pass a d :
  indian_scripts a = true -> A_Z d = true -> lower U [a] = [a] ->
  _clean_indian_script U [a; a; d] = [a; a; a].
Proof.
  intros Ha Hd Hlow.
  pose proof (indian_scripts_not_A_Z a Ha) as Hna.
  pose proof (A_Z_not_indian d Hd) as Hnd.
  unfold _clean_indian_script.
  assert (E1 : sub_capital_before U [a; a; d] = [a; a; d]).
  { cbn [sub_capital_before]. now rewrite Hna. }
  rewrite E1.
  assert (E2 : sub_capital_after U [a; a; d] = [a; a; a]).
  { cbn [sub_capital_after]. rewrite Ha, Hd, Hna, Hlow, andb_false_r.
    reflexivity. }
  rewrite E2.
  assert (E3 : sub_capital_between U [a; a; a] = [a; a; a]).
  { cbn [sub_capital_between]. now rewrite Hna, andb_false_r. }
  rewrite E3.
  cbn [sub_standalone_capital]. now rewrite Hna.
Qed.
End WithUnicode.

(** X5: [_clean_indian_script] is not idempotent. For an alphanumeric Indic
    code point [a] that is its own lower case, followed by two capitals
    of [[A-Z]], one pass overwrites the first capital with a copy of [a]
    and leaves the second, directly after an Indic code point; a second
    pass overwrites that one too. *)
Theorem clean_indian_script_not_idempotent U a c d :
  indian_scripts a = true -> A_Z c = true -> A_Z d = true ->
  lower U [a] = [a] -> c_isalnum U a = true ->
  _clean_indian_script U [a; c; d] = [a; a; d]
  /\ _clean_indian_script U (_clean_indian_script U [a; c; d]) = [a; a; a]
  /\ _clean_indian_script U (_clean_indian_script U [a; c; d])
     <> _clean_indian_script U [a; c; d].
Proof.
  intros Ha Hc Hd Hlow Hword.
  rewrite (clean_indian_script_first_pass U a c d Ha Hc Hd Hlow Hword).
  rewrite (clean_indian_script_second_pass U a d Ha Hd Hlow).
  split; [reflexivity|]. split; [reflexivity|].
  intros E. injection E as E. subst d.
  rewrite (indian_scripts_not_A_Z a Ha) in Hd. discriminate Hd.
Qed.

Lemma clean_indian_script_not_idempotent_witness :
  _clean_indian_script Ucd.table (u "कCD") = u "ककD"
  /\ _clean_indian_script Ucd.table (_clean_indian_script Ucd.table (u "कCD"))
     = u "ककक".
Proof.
  destruct (clean_indian_script_not_idempotent Ucd.table 0x915 67 68)
    as [H1 [H2 _]]; try (vm_compute; reflexivity).
  split; [exact H1 | exact H2].
Defined.
End IndicSecondPassFacts.

(** ** Syllables *)

Module SyllableFacts.
Import Py Formatters PyFacts.

Section WithUnicode.
Variable U : ucd.

(** The list the loop leaves, with the syllable being read appended when
    it is not empty. *)
Lemma break_loop_accumulators word : forall syls cur,
  (let (s, c) := break_loop U syls cur word in
   match c with [] => s | _ => s ++ [c] end)
  = syls ++ match syllables U word with
            | s :: ss => (cur ++ s) :: ss
            | [] => match cur with [] => [] | _ => [cur] end
            end.
Proof.
  induction word as [|c rest IH]; intros syls cur.
  - cbn. destruct cur; [now rewrite app_nil_r | reflexivity].
  - unfold syllables. cbn [break_loop app].
    set (b := match rest with
              | [] => false
              | next :: _ => is_vowel U c && negb (is_vowel U next)
              end).
    destruct b.
    + rewrite (IH (syls ++ [cur ++ [c]]) []), (IH [[c]] []).
      rewrite <- app_assoc. cbn [app].
      destruct (syllables U rest); reflexivity.
    + rewrite (IH syls (cur ++ [c])), (IH [] [c]). cbn [app].
      destruct (syllables U rest) as [|s ss].
      * destruct (cur ++ [c]) eqn:E; [now destruct cur | reflexivity].
      * now rewrite <- app_assoc.
Qed.

Lemma syllables_nil : syllables U [] = [].
Proof. reflexivity. Qed.

Lemma syllables_cons c rest :
  syllables U (c :: rest)
  = if match rest with
       | [] => false
       | next :: _ => is_vowel U c && negb (is_vowel U next)
       end
    then [c] :: syllables U rest
    else match syllables U rest with
         | s :: ss => (c :: s) :: ss
         | [] => [[c]]
         end.
Proof.
  unfold syllables at 1. cbn [break_loop app].
  destruct (match rest with
            | [] => false
            | next :: _ => is_vowel U c && negb (is_vowel U next)
            end).
  - rewrite (break_loop_accumulators rest [[c]] []). cbn [app].
    destruct (syllables U rest); reflexivity.
  - rewrite (break_loop_accumulators rest [] [c]). reflexivity.
Qed.

Lemma syllables_head c rest :
  exists s ss, syllables U (c :: rest) = (c :: s) :: ss.
Proof.
  rewrite syllables_cons.
  destruct (match rest with
            | [] => false
            | next :: _ => is_vowel U c && negb (is_vowel U next)
            end).
  - now exists [], (syllables U rest).
  - destruct (syllables U rest) as [|s ss]; [now exists [], [] | now exists s, ss].
Qed.

Lemma break_nil : _break_into_syllables U [] = [].
Proof. reflexivity. Qed.

Lemma break_cons c next rest :
  _break_into_syllables U (c :: next :: rest)
  = c :: (if is_vowel U c && negb (is_vowel U next) then [45] else [])
      ++ _break_into_syllables U (next :: rest).
Proof.
  unfold _break_into_syllables. rewrite syllables_cons.
  destruct (syllables_head next rest) as [s [ss E]]. rewrite E.
  destruct (is_vowel U c && negb (is_vowel U next)).
  - reflexivity.
  - cbn [join app]. destruct ss; reflexivity.
Qed.

Lemma filter_join_hyphen l :
  filter not_hyphen (join [45] l) = filter not_hyphen (List.concat l).
Proof.
  induction l as [|s [|s' l] IH]; [reflexivity | |].
  - cbn [join List.concat]. now rewrite app_nil_r.
  - change (join [45] (s :: s' :: l)) with (s ++ [45] ++ join [45] (s' :: l)).
    cbn [List.concat]. rewrite !filter_app. cbn [List.concat] in IH.
    unfold str, char in *. rewrite IH, filter_app. reflexivity.
Qed.

Lemma syllables_concat word : List.concat (syllables U word) = word.
Proof.
  induction word as [|c rest IH]; [reflexivity|].
  rewrite syllables_cons.
  destruct (match rest with
            | [] => false
            | next :: _ => is_vowel U c && negb (is_vowel U next)
            end).
  - cbn [List.concat app]. now rewrite IH.
  - destruct (syllables U rest) as [|s ss] eqn:E.
    + cbn in IH |- *. now rewrite <- IH.
    + cbn [List.concat app] in IH |- *. now rewrite IH.
Qed.

Lemma syllables_nonempty word : Forall (fun s => s <> []) (syllables U word).
Proof.
  induction word as [|c rest IH]; [constructor|].
  rewrite syllables_cons.
  destruct (match rest with
            | [] => false
            | next :: _ => is_vowel U c && negb (is_vowel U next)
            end).
  - constructor; [discriminate | exact IH].
  - destruct (syllables U rest) as [|s ss].
    + constructor; [discriminate | constructor].
    + inversion IH; subst. constructor; [discriminate | assumption].
Qed.

Lemma break_length word :
  (List.length word <= List.length (_break_into_syllables U word))%nat.
Proof.
  induction word as [|c [|next rest] IH]; [cbn; lia | cbn; lia |].
  rewrite break_cons.
  destruct (is_vowel U c && negb (is_vowel U next));
    cbn [List.length app] in IH |- *; lia.
Qed.

Lemma break_filter word :
  filter not_hyphen (_break_into_syllables U word) = filter not_hyphen word.
Proof.
  unfold _break_into_syllables.
  change (u "-") with [45]. now rewrite filter_join_hyphen, syllables_concat.
Qed.
End WithUnicode.

(** X8: [_break_into_syllables] puts a hyphen after every vowel that a
    non-vowel follows and changes nothing else: the empty word and a word
    of one code point come back as they are. *)
Theorem break_into_syllables_equations U :
  _break_into_syllables U [] = []
  /\ (forall c, _break_into_syllables U [c] = [c])
  /\ (forall c next rest,
      _break_into_syllables U (c :: next :: rest)
      = c :: (if is_vowel U c && negb (is_vowel U next) then u "-" else [])
          ++ _break_into_syllables U (next :: rest)).
Proof.
  split; [reflexivity|]. split; [reflexivity|]. apply break_cons.
Qed.

(** X9: Deleting the hyphens of the result of [_break_into_syllables] gives
    the word with its hyphens deleted, and the result is never shorter
    than the word: hyphens are the only code points added, and none is
    dropped or reordered. *)
Theorem break_into_syllables_only_adds_hyphens U word :
  filter not_hyphen (_break_into_syllables U word) = filter not_hyphen word
  /\ (List.length word <= List.length (_break_into_syllables U word))%nat.
Proof.
  split; [apply break_filter | apply break_length].
Qed.

(** X10: The syllables that are joined are a partition of the word into
    non-empty pieces: every piece but the last ends with a vowel, the
    piece after it starts with a non-vowel, and inside a piece no vowel is
    directly followed by a non-vowel. *)
Theorem syllables_partition U word :
  List.concat (syllables U word) = word
  /\ Forall (fun s => s <> []) (syllables U word)
  /\ (forall pre s1 s2 post,
      syllables U word = pre ++ s1 :: s2 :: post ->
      exists a c d b,
        s1 = a ++ [c] /\ s2 = d :: b
        /\ is_vowel U c = true /\ is_vowel U d = false)
  /\ Forall (no_neighbours (fun a b => is_vowel U a && negb (is_vowel U b)))
            (syllables U word).
Proof.
  split; [apply syllables_concat|]. split; [apply syllables_nonempty|]. split.
  - induction word as [|c rest IH]; intros pre s1 s2 post E.
    + destruct pre; discriminate E.
    + rewrite syllables_cons in E. destruct rest as [|next rest'].
      * destruct pre as [|? [|? ?]]; discriminate E.
      * destruct (syllables_head U next rest') as [s [ss Hs]].
        rewrite Hs in E, IH.
        destruct (is_vowel U c && negb (is_vowel U next)) eqn:Hb.
        -- apply andb_true_iff in Hb. destruct Hb as [Hc Hn].
           apply negb_true_iff in Hn.
           destruct pre as [|p pre].
           ++ injection E as <- <- <-. now exists [], c, next, s.
           ++ injection E as <- E. now apply (IH pre s1 s2 post).
        -- destruct pre as [|p pre].
           ++ injection E as <- E.
              destruct (IH [] (next :: s) s2 post) as [a [x [d [b [H1 H2]]]]];
                [now rewrite E|].
              exists (c :: a), x, d, b. cbn [app]. now rewrite <- H1.
           ++ injection E as <- E.
              apply (IH ((next :: s) :: pre) s1 s2 post). now rewrite E.
  - induction word as [|c rest IH]; [constructor|].
    rewrite syllables_cons. destruct rest as [|next rest'].
    + cbn. repeat constructor.
    + destruct (syllables_head U next rest') as [s [ss Hs]].
      rewrite Hs in IH |- *.
      destruct (is_vowel U c && negb (is_vowel U next)) eqn:Hb.
      * constructor; [exact I | exact IH].
      * inversion IH; subst. constructor; [|assumption].
        split; assumption.
Qed.

(** X11: [_break_into_syllables] returns the word unchanged exactly when no
    vowel of the word is directly followed by a non-vowel. *)
Theorem break_into_syllables_unchanged_iff U word :
  _break_into_syllables U word = word
  <-> no_neighbours (fun a b => is_vowel U a && negb (is_vowel U b)) word.
Proof.
  induction word as [|c [|next rest] IH]; [now split | now split |].
  rewrite break_cons.
  destruct (is_vowel U c && negb (is_vowel U next)) eqn:Hb; cbn [app].
  - split.
    + intros E.
      pose proof (break_length U (next :: rest)) as Hlen.
      apply (f_equal (@List.length _)) in E. cbn [List.length] in E, Hlen. lia.
    + intros [H _]. cbv beta in H. congruence.
  - split.
    + intros E. injection E as E. split; [exact Hb | now apply IH].
    + intros [_ H]. f_equal. now apply IH.
Qed.
End SyllableFacts.

(** ** The pronunciation guide and the formatting of a dict *)

Module GuideFacts.
Import Py Formatters PyFacts FormattersFacts SyllableFacts.

Lemma str_eqb_eq a : forall b, str_eqb a b = true <-> a = b.
Proof.
  induction a as [|x a IH]; intros [|y b]; cbn [str_eqb];
    try (split; [discriminate | discriminate]); [now split|].
  rewrite andb_true_iff, Z.eqb_eq, IH. split.
  - now intros [-> ->].
  - intros E. injection E as -> ->. now split.
Qed.

Lemma str_dict_set_fresh {V : Type} (d : dict str V) k v :
  ~ In k (map fst d) -> str_dict_set d k v = (d ++ [(k, v)])%list.
Proof.
  induction d as [|[k' v'] d IH]; intros Hn; [reflexivity|].
  cbn [str_dict_set app]. destruct (str_eqb k' k) eqn:E.
  - apply str_eqb_eq in E. elim Hn. now left.
  - rewrite IH; [reflexivity|]. intros H. apply Hn. now right.
Qed.

Section WithUnicode.
Variable U : ucd.

Lemma add_pronunciation_guide_eq text target_script :
  add_pronunciation_guide U text target_script
  = if existsb (String.eqb target_script) ["roman"; "english"]%string
       && (Z.of_nat (List.length (split U text)) =? 1)
       && (6 <? Z.of_nat (List.length text))
    then [("text"%string, text);
          ("pronunciation"%string,
           text ++ u " → " ++ _break_into_syllables U text)]
    else [("text"%string, text)].
Proof.
  unfold add_pronunciation_guide.
  destruct (existsb (String.eqb target_script) ["roman"; "english"]%string);
    [|reflexivity].
  cbv zeta. cbn [andb].
  destruct ((Z.of_nat (List.length (split U text)) =? 1)
            && (6 <? Z.of_nat (List.length text))); reflexivity.
Qed.

Lemma format_loop_ok self items : forall acc,
  ~ (exists k, In k (map fst acc) /\ In k (map fst items)) ->
  NoDup (map fst items) ->
  exists formatted,
    format_loop U self acc items = Ok (acc ++ formatted)%list
    /\ map fst formatted = map fst items
    /\ Forall2 (fun kv kv' =>
                  clean_transliteration U self (snd kv)
                                        (target_script_of U (fst kv))
                  = Ok (snd kv')) items formatted.
Proof.
  induction items as [|[script_name text] items IH]; intros acc Hacc Hnd.
  - exists []. rewrite app_nil_r. repeat split. constructor.
  - cbn [format_loop].
    destruct (clean_transliteration_ok U self text
                (target_script_of U script_name)) as [v Hv].
    rewrite Hv. cbn [bind].
    rewrite str_dict_set_fresh.
    2:{ intros H. apply Hacc. exists script_name. split; [exact H | now left]. }
    inversion Hnd as [|? ? Hfresh Hnd']; subst.
    destruct (IH (acc ++ [(script_name, v)])%list) as [f [Hrun [Hkeys Hvals]]].
    + intros [k [H1 H2]]. rewrite map_app, in_app_iff in H1.
      destruct H1 as [H1|[<-|[]]].
      * apply Hacc. exists k. split; [exact H1 | now right].
      * now apply Hfresh.
    + exact Hnd'.
    + exists ((script_name, v) :: f). rewrite Hrun, <- app_assoc.
      split; [reflexivity|]. split.
      * cbn [map fst]. now rewrite Hkeys.
      * constructor; [exact Hv | exact Hvals].
Qed.
End WithUnicode.

(** X12: [add_pronunciation_guide] always returns the entry [text] with the
    text it was given, and a second entry [pronunciation] exactly when the
    target is [roman] or [english], the text is one word and it is longer
    than six code points; that entry is the text, an arrow and the text
    broken into syllables. *)
Theorem pronunciation_guide_entries U text target_script key value :
  In (key, value) (add_pronunciation_guide U text target_script)
  <-> (key = "text"%string /\ value = text)
      \/ (key = "pronunciation"%string
          /\ (target_script = "roman"%string
              \/ target_script = "english"%string)
          /\ List.length (split U text) = 1%nat
          /\ (6 < List.length text)%nat
          /\ value = (text ++ u " → " ++ _break_into_syllables U text)%list).
Proof.
  rewrite add_pronunciation_guide_eq.
  assert (Ht : existsb (String.eqb target_script) ["roman"; "english"]%string
               = true
               <-> target_script = "roman"%string
                   \/ target_script = "english"%string).
  { cbn [existsb]. rewrite orb_false_r, orb_true_iff, !String.eqb_eq. tauto. }
  destruct (existsb (String.eqb target_script) ["roman"; "english"]%string)
    eqn:E1; cbn [andb].
  - destruct (Z.eqb_spec (Z.of_nat (List.length (split U text))) 1) as [E2|E2];
      cbn [andb].
    + destruct (Z.ltb_spec 6 (Z.of_nat (List.length text))) as [E3|E3].
      * split.
        -- intros [H|[H|[]]]; injection H as <- <-; [now left|].
           right. repeat split; [now apply Ht | lia | lia].
        -- intros [[-> ->]|[-> [_ [_ [_ ->]]]]]; [now left | right; now left].
      * split.
        -- intros [H|[]]. injection H as <- <-. now left.
        -- intros [[-> ->]|[_ [_ [_ [H _]]]]]; [now left | lia].
    + split.
      * intros [H|[]]. injection H as <- <-. now left.
      * intros [[-> ->]|[_ [_ [H _]]]]; [now left | lia].
  - split.
    + intros [H|[]]. injection H as <- <-. now left.
    + intros [[-> ->]|[_ [H _]]]; [now left|].
      apply Ht in H. discriminate H.
Qed.

(** X13: Every code point of an entry of [add_pronunciation_guide] is a code
    point of the text, a space, the arrow or a hyphen: the phonetic hints
    computed from the lowered text are not part of the result, and the
    letter case of the text is kept. *)
Theorem pronunciation_guide_code_points U text target_script key value c :
  In (key, value) (add_pronunciation_guide U text target_script) ->
  In c value ->
  In c text \/ c = 32 \/ c = 0x2192 \/ c = 45.
Proof.
  rewrite add_pronunciation_guide_eq. intros Hin Hc.
  assert (Hv : value = text
               \/ value = (text ++ u " → "
                                 ++ _break_into_syllables U text)%list).
  { destruct (_ && _ && _); cbn [In] in Hin.
    - destruct Hin as [H|[H|[]]]; injection H as _ <-; [now left | now right].
    - destruct Hin as [H|[]]. injection H as _ <-. now left. }
  destruct Hv as [->| ->]; [now left|].
  rewrite !in_app_iff in Hc. destruct Hc as [Hc|[Hc|Hc]]; [now left | |].
  - right. change (u " → ") with [32; 0x2192; 32] in Hc.
    cbn [In] in Hc. intuition lia.
  - destruct (Z.eqb_spec c 45) as [->|Hn]; [tauto|]. left.
    assert (H : In c (filter not_hyphen (_break_into_syllables U text))).
    { apply filter_In. split; [exact Hc|]. unfold not_hyphen.
      now apply negb_true_iff, Z.eqb_neq. }
    rewrite break_filter in H.
    now apply filter_In in H.
Qed.

Lemma pronunciation_guide_code_points_witness :
  In ("pronunciation"%string, u "Deepavali → Dee-pa-va-li")
     (add_pronunciation_guide Ucd.table (u "Deepavali") "roman")
  /\ (In 0x2192 (u "Deepavali") \/ 0x2192 = 32 \/ 0x2192 = 0x2192
      \/ 0x2192 = 45).
Proof.
  assert (H : In ("pronunciation"%string, u "Deepavali → Dee-pa-va-li")
                 (add_pronunciation_guide Ucd.table (u "Deepavali") "roman"))
    by (vm_compute; right; left; reflexivity).
  split; [exact H|].
  apply (pronunciation_guide_code_points Ucd.table (u "Deepavali") "roman"
           "pronunciation" (u "Deepavali → Dee-pa-va-li") 0x2192 H).
  vm_compute. repeat (try (left; reflexivity); right).
Defined.

(** X14: [format_transliterations] never raises: for a dict (distinct script
    names) it returns a dict with the same names in the same order, each
    holding [clean_transliteration] of the input value for the target
    type read off the name. *)
Theorem format_transliterations_entries U self transliterations :
  NoDup (map fst transliterations) ->
  exists formatted,
    format_transliterations U self transliterations = Ok formatted
    /\ map fst formatted = map fst transliterations
    /\ Forall2 (fun kv kv' =>
                  clean_transliteration U self (snd kv)
                                        (target_script_of U (fst kv))
                  = Ok (snd kv')) transliterations formatted.
Proof.
  intros Hnd. unfold format_transliterations.
  destruct (format_loop_ok U self transliterations []) as [f Hf];
    [now intros [k [[] _]] | exact Hnd |].
  exists f. exact Hf.
Qed.

Lemma format_transliterations_entries_witness :
  exists formatted,
    format_transliterations Ucd.table formatter
      [(u "Roman", u "namaste  india"); (u "Tamil", u "x  y")] = Ok formatted
    /\ map fst formatted = [u "Roman"; u "Tamil"].
Proof.
  destruct (format_transliterations_entries Ucd.table formatter
              [(u "Roman", u "namaste  india"); (u "Tamil", u "x  y")])
    as [f [H1 [H2 _]]].
  - vm_compute. constructor.
    + intros [H|[]]. discriminate H.
    + constructor; [intros [] | constructor].
  - exists f. split; [exact H1 | exact H2].
Defined.

(** X15: The target type [iast] that [format_transliterations] gives to a name
    containing "iast" is formatted exactly as [other]: only the names
    with "roman", "english", "itrans" or "latin" are treated differently. *)
Theorem iast_names_formatted_as_other U self script_name text :
  clean_transliteration U self text (target_script_of U script_name)
  = clean_transliteration U self text
      (if existsb (fun keyword => contains (lower U script_name) keyword)
                  [u "roman"; u "english"; u "itrans"; u "latin"]
       then "roman"%string else "other"%string).
Proof.
  unfold target_script_of.
  destruct (existsb _ _); [reflexivity|].
  destruct (contains _ _); [|reflexivity].
  unfold clean_transliteration. destruct text; reflexivity.
Qed.
End GuideFacts.

(** ** What the views answer *)

Module ResponseFacts.
Import Py Formatters Views PyFacts FormattersFacts ViewsFacts WhitespaceFacts.
Local Open Scope py_scope.
Local Open Scope string_scope.

Section WithCollaborators.
Variable U : ucd.
Variable process : string -> string -> str -> exc str.

Lemma single_transliteration_ok actual source_script target_script text :
  exists t,
    single_transliteration U process actual source_script target_script text
    = Ok t.
Proof.
  unfold single_transliteration.
  assert (Hfallback : exists t,
            try_except
              (raw_transliterated <- process "ITRANS" target_script text ;;
               clean_transliteration U formatter raw_transliterated
                                     target_script)
              (fun _ => Ok (failure_text text)) = Ok t).
  { destruct (process "ITRANS" target_script text) as [raw|e];
      cbn [bind try_except]; [|eauto].
    destruct (clean_transliteration_ok U formatter raw target_script)
      as [t ->].
    cbn [try_except]. eauto. }
  destruct (actual =? "en").
  - destruct (target_script =? "ITRANS"); cbn [try_except]; [eauto|].
    destruct (process "ITRANS" target_script text) as [raw|e];
      cbn [bind try_except]; [|eauto].
    destruct (clean_transliteration_ok U formatter raw target_script)
      as [t ->].
    cbn [try_except]. eauto.
  - destruct (process source_script target_script text) as [raw|e];
      cbn [bind try_except]; [|exact Hfallback].
    destruct (clean_transliteration_ok U formatter raw target_script)
      as [t ->].
    cbn [try_except]. eauto.
Qed.

Lemma stored_functional english source_script text code v1 v2 :
  stored U process english source_script text code v1 ->
  stored U process english source_script text code v2 ->
  v1 = v2.
Proof.
  intros H1 H2. inversion H1; subst; inversion H2; subst; congruence.
Qed.

(** The value the loop stores under each name of [target_scripts]. *)
Lemma entries_stored english source_script text :
  exists d,
    for_each_target U process english source_script text [] target_scripts
    = Ok d
    /\ forall name code, In (name, code) target_scripts ->
       stored U process english source_script text code (dict_get d name []).
Proof.
  destruct (all_targets_stored U process english source_script text)
    as [vs [Hvs ->]].
  eexists. split; [reflexivity|].
  split_stored Hvs. intros name code Hin. cbn [In target_scripts] in Hin.
  repeat (destruct Hin as [Hin|Hin];
          [injection Hin as <- <-;
           cbn [dict_get String.eqb Ascii.eqb Bool.eqb combine map fst
                target_scripts];
           assumption|]).
  contradiction.
Qed.

(** Unless the source is English and the target ITRANS, the single
    transliteration is made as an entry of the loop is, up to the text
    that stands in when every conversion raises. *)
Lemma single_transliteration_stored actual source_script target_script text :
  (actual =? "en") = false \/ (target_script =? "ITRANS") = false ->
  (exists t,
     single_transliteration U process actual source_script target_script text
     = Ok t
     /\ stored U process (actual =? "en") source_script text target_script t)
  \/ ((exists e, primary_conversion process (actual =? "en") source_script
                                    target_script text = Raise e)
      /\ (exists e2, process "ITRANS" target_script text = Raise e2)
      /\ single_transliteration U process actual source_script target_script
                                text
         = Ok (failure_text text)).
Proof.
  intros Hc. unfold single_transliteration, primary_conversion.
  assert (Hfallback : forall e,
            primary_conversion process (actual =? "en") source_script
                               target_script text = Raise e ->
            (exists t,
               try_except
                 (raw_transliterated <-
                    process "ITRANS" target_script text ;;
                  clean_transliteration U formatter raw_transliterated
                                        target_script)
                 (fun _ => Ok (failure_text text)) = Ok t
               /\ stored U process (actual =? "en") source_script text
                         target_script t)
            \/ ((exists e2, process "ITRANS" target_script text = Raise e2)
                /\ try_except
                     (raw_transliterated <-
                        process "ITRANS" target_script text ;;
                      clean_transliteration U formatter raw_transliterated
                                            target_script)
                     (fun _ => Ok (failure_text text))
                   = Ok (failure_text text))).
  { intros e He.
    destruct (process "ITRANS" target_script text) as [raw|e2] eqn:Hf;
      cbn [bind try_except].
    - destruct (clean_transliteration_ok U formatter raw target_script)
        as [t Ht].
      rewrite Ht. cbn [try_except]. left. exists t. split; [reflexivity|].
      eapply stored_fallback; eassumption.
    - right. split; [eauto | reflexivity]. }
  unfold primary_conversion in Hfallback.
  destruct (actual =? "en") eqn:Hen.
  - destruct Hc as [Hc|Hc]; [discriminate Hc|]. rewrite Hc in *.
    destruct (process "ITRANS" target_script text) as [raw|e] eqn:Hp;
      cbn [bind try_except].
    + destruct (clean_transliteration_ok U formatter raw target_script)
        as [t Ht].
      rewrite Ht. cbn [try_except]. left. exists t. split; [reflexivity|].
      eapply stored_primary; [|exact Ht].
      unfold primary_conversion. now rewrite Hc.
    + right. split; [eauto|]. split; [eauto | reflexivity].
  - destruct (process source_script target_script text) as [raw|e] eqn:Hp;
      cbn [bind try_except].
    + destruct (clean_transliteration_ok U formatter raw target_script)
        as [t Ht].
      rewrite Ht. cbn [try_except]. left. exists t. split; [reflexivity|].
      eapply stored_primary; [|exact Ht]. exact Hp.
    + destruct (Hfallback e eq_refl) as [[t [Ht Hs]]|[He2 Ht]].
      * left. exists t. split; assumption.
      * right. split; [eauto|]. split; assumption.
Qed.
End WithCollaborators.

Lemma filter_nil_forallb (P : char -> bool) l :
  filter (fun c => negb (P c)) l = [] <-> forallb P l = true.
Proof.
  induction l as [|c l IH]; [now split|].
  cbn [filter forallb]. destruct (P c); cbn [negb andb].
  - exact IH.
  - split; discriminate.
Qed.

(** No text is extracted exactly when the OCR results hold nothing but
    whitespace. *)
Lemma extract_text_nil_iff U texts :
  extract_text U texts = []
  <-> forallb (c_isspace U) (List.concat texts) = true.
Proof.
  rewrite <- filter_nil_forallb.
  change (fun c => negb (c_isspace U c)) with (not_space U).
  assert (E : filter (not_space U) (extract_text U texts)
              = filter (not_space U) (List.concat texts)).
  { unfold extract_text. rewrite filter_nonspace_collapse.
    now apply filter_join. }
  rewrite <- E. split; [now intros ->|].
  intros H. unfold extract_text in *.
  destruct (collapsed_normal_form U (join (u " ") texts))
    as [_ [_ [_ [Hhd _]]]].
  destruct (join (u " ") (split U (join (u " ") texts))) as [|c r];
    [reflexivity|].
  cbn [filter] in H. unfold not_space at 1 in H.
  rewrite (Hhd c eq_refl) in H. discriminate H.
Qed.

(** X16: From the OCR results on, [transliterate_single] never answers 500,
    whatever the detector and the converter do (raise included): it
    answers 400 when no text was extracted, and otherwise 200 with the
    extracted text, the source language it settled on, the target
    language as given, a single transliteration and the eleven entries of
    [target_scripts]. *)
Theorem transliterate_single_answers U detect process source_language
    target_language texts :
  (extract_text U texts = []
   /\ transliterate_single U detect process source_language target_language
                           texts
      = HTTP_400_BAD_REQUEST no_text_error)
  \/ (extract_text U texts <> []
      /\ exists transliterated_text all_transliterations,
          transliterate_single U detect process source_language
                               target_language texts
          = HTTP_200_single
              (extract_text U texts)
              (actual_source_language
                 match detect (extract_text U texts) with
                 | Ok l => l
                 | Raise _ => source_language
                 end source_language)
              target_language transliterated_text all_transliterations
          /\ map fst all_transliterations = map fst target_scripts).
Proof.
  unfold transliterate_single.
  destruct (extract_text U texts) as [|c r]; [left; now split|].
  right. split; [discriminate|]. cbv zeta.
  set (lang := actual_source_language _ source_language).
  destruct (single_transliteration_ok U process lang
              (single_source_script lang)
              (single_target_script target_language) (c :: r)) as [t ->].
  cbn [bind]. unfold single_all_transliterations.
  destruct (all_targets_stored U process (lang =? "en")
              (single_source_script lang) (c :: r)) as [vs [Hvs ->]].
  cbn [bind]. exists t. eexists. split; [reflexivity|].
  split_stored Hvs. reflexivity.
Qed.

(** X17: When the user selects English as the source language, the answer of
    [transliterate_single] does not depend on the language detector. *)
Theorem english_selection_overrides_detector U detect detect' process
    target_language texts :
  transliterate_single U detect process "en" target_language texts
  = transliterate_single U detect' process "en" target_language texts.
Proof.
  assert (H : forall d, actual_source_language d "en" = "en").
  { intros d. unfold actual_source_language.
    change ("en" =? "en") with true. now rewrite orb_true_r. }
  unfold transliterate_single.
  destruct (extract_text U texts) as [|c r]; [reflexivity|].
  cbv zeta. rewrite !H. reflexivity.
Qed.

(** X18: Two names of [target_scripts] with the same script code always hold
    the same text: the entries [Devanagari (Hindi)] and
    [Devanagari (Marathi)] of a response are equal. *)
Theorem same_code_same_entry U process english source_script text :
  exists d,
    for_each_target U process english source_script text [] target_scripts
    = Ok d
    /\ (forall name name' code,
        In (name, code) target_scripts -> In (name', code) target_scripts ->
        dict_get d name [] = dict_get d name' [])
    /\ dict_get d "Devanagari (Hindi)" [] = dict_get d "Devanagari (Marathi)" [].
Proof.
  destruct (all_targets_stored U process english source_script text)
    as [vs [Hvs ->]].
  eexists. split; [reflexivity|].
  split_stored Hvs. split.
  - intros name name' code Hin Hin'. cbn [In target_scripts] in Hin, Hin'.
    repeat (destruct Hin as [Hin|Hin];
            [injection Hin as <- <-;
             repeat (destruct Hin' as [Hin'|Hin'];
                     [first [ discriminate Hin'
                            | injection Hin' as <-;
                              cbn [dict_get String.eqb Ascii.eqb Bool.eqb
                                   combine map fst target_scripts];
                              first [ reflexivity
                                    | eapply stored_functional; eassumption ] ]
                     |]);
             contradiction|]).
    contradiction.
  - cbn [dict_get String.eqb Ascii.eqb Bool.eqb combine map fst
         target_scripts].
    eapply stored_functional; eassumption.
Qed.

(** X20: Both views answer 400 with the no-text error exactly when the OCR
    results hold no code point other than whitespace (no result at all
    included), whatever the detector and the converter do. *)
Theorem bad_request_iff_only_whitespace U detect process source_language
    target_language texts :
  (transliterate_image U detect process texts
   = HTTP_400_BAD_REQUEST no_text_error
   <-> forallb (c_isspace U) (List.concat texts) = true)
  /\ (transliterate_single U detect process source_language target_language
                           texts
      = HTTP_400_BAD_REQUEST no_text_error
      <-> forallb (c_isspace U) (List.concat texts) = true).
Proof.
  rewrite <- extract_text_nil_iff.
  unfold transliterate_image, transliterate_single. cbv zeta.
  destruct (extract_text U texts) as [|c r]; [now repeat split|].
  split; (split; [|discriminate]).
  - destruct (image_transliterations _ _ _ _); discriminate.
  - destruct (single_transliteration _ _ _ _ _ _); cbn [bind];
      [|discriminate].
    destruct (single_all_transliterations _ _ _ _ _); cbn [bind];
      discriminate.
Qed.

(** X21: When a conversion for the target script returns (the first attempt
    or the ITRANS retry), the single transliteration of
    [transliterate_single] equals the entry of its mapping for every name
    with that script code, except for an English source with the ITRANS
    target, where the text is returned as it is. *)
Theorem single_result_is_entry U process actual source_script text name code
    raw :
  In (name, code) target_scripts ->
  (actual =? "en") = false \/ (code =? "ITRANS") = false ->
  primary_conversion process (actual =? "en") source_script code text = Ok raw
  \/ process "ITRANS" code text = Ok raw ->
  exists d,
    single_all_transliterations U process actual source_script text = Ok d
    /\ single_transliteration U process actual source_script code text
       = Ok (dict_get d name []).
Proof.
  intros Hin Hc Hok. unfold single_all_transliterations.
  destruct (entries_stored U process (actual =? "en") source_script text)
    as [d [Hd Hentries]].
  exists d. split; [exact Hd|].
  destruct (single_transliteration_stored U process actual source_script code
              text Hc) as [[t [Ht Hs]]|[[e He] [[e2 He2] _]]].
  - rewrite Ht. f_equal.
    eapply stored_functional; [exact Hs | now apply Hentries].
  - destruct Hok as [Hok|Hok]; congruence.
Qed.

Lemma single_result_is_entry_witness :
  exists d,
    single_all_transliterations Ucd.table (fun _ _ x => Ok x) "hi"
                                "Devanagari" (u "rAma  ") = Ok d
    /\ single_transliteration Ucd.table (fun _ _ x => Ok x) "hi" "Devanagari"
                              "Tamil" (u "rAma  ")
       = Ok (dict_get d "Tamil" []).
Proof.
  apply (single_result_is_entry Ucd.table (fun _ _ x => Ok x) "hi"
           "Devanagari" (u "rAma  ") "Tamil" "Tamil" (u "rAma  ")).
  - cbn. tauto.
  - left. reflexivity.
  - left. reflexivity.
Defined.
End ResponseFacts.

(** ** English formatting of plain words *)

Module EnglishFormatFacts.
Import Py Formatters PyFacts FormattersFacts StrFacts IdempotenceFacts
       WhitespaceFacts TableFacts.

Lemma mapM_map {A B : Type} (f : A -> exc B) (g : A -> B) l :
  (forall a, In a l -> f a = Ok (g a)) -> mapM f l = Ok (map g l).
Proof.
  induction l as [|a l IH]; intros H; [reflexivity|].
  cbn [mapM map]. rewrite (H a) by now left. cbn [bind].
  rewrite IH by (intros; apply H; now right). reflexivity.
Qed.

Lemma small_letter_range c :
  ascii_lower_letter c = true <-> 97 <= c <= 122.
Proof. apply in_range_iff. Qed.

Lemma small_or_space_plain text :
  forallb small_or_space text = true -> forallb plain text = true.
Proof.
  rewrite !forallb_forall. intros H c Hc. apply H in Hc.
  unfold small_or_space in Hc. apply orb_true_iff in Hc.
  unfold plain, A_Z, in_range.
  destruct Hc as [Hc|Hc];
    [apply small_letter_range in Hc | apply Z.eqb_eq in Hc];
    repeat match goal with
           | |- context [?x <? ?y] => destruct (Z.ltb_spec x y); try lia
           | |- context [?x <=? ?y] => destruct (Z.leb_spec x y); try lia
           end; reflexivity.
Qed.

Section WithUnicode.
Variable U : ucd.

Lemma small_letter_properties c :
  ascii_lower_letter c = true ->
  c_isupper U c = false /\ c_islower U c = true /\ c_istitle U c = false
  /\ c_iscased U c = true /\ c_isspace U c = false
  /\ c_lower U c = [c] /\ c_title U c = [c - 32] /\ (c =? 0x3A3) = false
  /\ c_isspace U (c - 32) = false.
Proof.
  intros H. pose proof H as Hr. apply small_letter_range in Hr.
  unfold c_isupper, c_islower, c_istitle, c_iscased, c_isspace, c_lower,
    c_title, is_ascii, ascii_upper_letter, in_range.
  rewrite H.
  repeat match goal with
         | |- context [?x <? ?y] => destruct (Z.ltb_spec x y); try lia
         | |- context [?x <=? ?y] => destruct (Z.leb_spec x y); try lia
         | |- context [?x =? ?y] => destruct (Z.eqb_spec x y); try lia
         end; cbn [andb orb]; repeat split; reflexivity.
Qed.

Lemma do_title_small r : forall before,
  forallb ascii_lower_letter r = true -> do_title U true before r = r.
Proof.
  induction r as [|c r IH]; intros before Hr; [reflexivity|].
  cbn [forallb] in Hr. apply andb_true_iff in Hr. destruct Hr as [Hc Hr].
  destruct (small_letter_properties c Hc)
    as [_ [_ [_ [Hcased [_ [Hlow [_ [Hsig _]]]]]]]].
  cbn [do_title]. unfold lower_at. rewrite Hsig, Hlow, Hcased.
  cbn [app]. f_equal. now apply IH.
Qed.

Lemma title_small w :
  forallb ascii_lower_letter w = true -> title U w = capitalized w.
Proof.
  destruct w as [|c r]; [reflexivity|]. intros Hw.
  cbn [forallb] in Hw. apply andb_true_iff in Hw. destruct Hw as [Hc Hr].
  destruct (small_letter_properties c Hc)
    as [_ [_ [_ [Hcased [_ [_ [Htitle _]]]]]]].
  unfold title. cbn [do_title capitalized]. rewrite Htitle, Hcased.
  cbn [app]. f_equal. now apply do_title_small.
Qed.

Lemma small_word_case w :
  w <> [] -> forallb ascii_lower_letter w = true ->
  isupper U w = false /\ islower U w = true.
Proof.
  intros Hne Hw. destruct w as [|c r]; [contradiction|].
  pose proof Hw as Hall.
  cbn [forallb] in Hw. apply andb_true_iff in Hw. destruct Hw as [Hc Hr].
  destruct (small_letter_properties c Hc) as [Hup [Hlow [Htit _]]].
  destruct r as [|d r]; [now split|].
  unfold isupper, islower. split.
  - cbn [forallb]. now rewrite Hlow.
  - apply andb_true_iff. split.
    + apply forallb_forall. intros x Hx.
      rewrite forallb_forall in Hall. apply Hall in Hx.
      destruct (small_letter_properties x Hx) as [Hx1 [_ [Hx3 _]]].
      now rewrite Hx1, Hx3.
    + cbn [existsb]. now rewrite Hlow.
Qed.

Lemma format_word_small w :
  w <> [] -> forallb ascii_lower_letter w = true ->
  format_word U w = Ok (capitalized w).
Proof.
  intros Hne Hw. destruct (small_word_case w Hne Hw) as [Hup Hlow].
  unfold format_word. rewrite Hup, Hlow.
  destruct w as [|c r]; [contradiction|]. cbn [bind tl].
  cbn [forallb] in Hw. apply andb_true_iff in Hw. destruct Hw as [Hc Hr].
  destruct (small_letter_properties c Hc) as [Hcup _].
  change (isupper U [c]) with (c_isupper U c). rewrite Hcup.
  cbn [andb]. rewrite orb_true_r.
  rewrite title_small; [reflexivity|].
  cbn [forallb]. now rewrite Hc, Hr.
Qed.

Lemma split_words_small text w :
  forallb small_or_space text = true -> In w (split U text) ->
  forallb ascii_lower_letter w = true.
Proof.
  intros Ht Hw. apply forallb_forall. intros c Hc.
  assert (Hin : In c (List.concat (split U text))).
  { apply in_concat. exists w. now split. }
  unfold split in Hin. rewrite split_from_concat in Hin. cbn [app] in Hin.
  apply filter_In in Hin. destruct Hin as [Hin Hs].
  rewrite forallb_forall in Ht. apply Ht in Hin.
  unfold small_or_space in Hin. apply orb_true_iff in Hin.
  destruct Hin as [Hin|Hin]; [exact Hin|].
  apply Z.eqb_eq in Hin. subst c. discriminate Hs.
Qed.

Lemma _format_for_english_small text :
  forallb small_or_space text = true ->
  _format_for_english U formatter text
  = Ok (join (u " ") (map capitalized (split U text))).
Proof.
  intros Ht. unfold _format_for_english.
  rewrite fold_replace_absent.
  - rewrite (mapM_map _ capitalized); [reflexivity|].
    intros w Hw. apply format_word_small.
    + eapply split_nonempty, Hw.
    + eapply split_words_small; eassumption.
  - intros kv Hin. apply plain_without_key.
    + now apply small_or_space_plain.
    + apply tables_keys_not_plain. tauto.
Qed.

Lemma capitalized_words text :
  forallb small_or_space text = true ->
  Forall (fun w => w <> [] /\ no_space U w = true)
         (map capitalized (split U text)).
Proof.
  intros Ht. apply Forall_forall. intros w Hw.
  apply in_map_iff in Hw. destruct Hw as [w0 [<- Hw0]].
  pose proof (split_nonempty U _ _ Hw0) as Hne.
  pose proof (split_words_small text w0 Ht Hw0) as Hsmall.
  destruct w0 as [|c r]; [contradiction|]. split; [discriminate|].
  cbn [forallb] in Hsmall. apply andb_true_iff in Hsmall.
  destruct Hsmall as [Hc Hr].
  unfold no_space, capitalized. cbn [forallb].
  destruct (small_letter_properties c Hc) as [_ [_ [_ [_ [_ [_ [_ [_ Hs]]]]]]]].
  rewrite Hs. cbn [negb andb].
  apply forallb_forall. intros x Hx. rewrite forallb_forall in Hr.
  apply Hr in Hx.
  destruct (small_letter_properties x Hx) as [_ [_ [_ [_ [Hxs _]]]]].
  now rewrite Hxs.
Qed.
End WithUnicode.

(** X19: For a Roman target, a text of small ASCII letters and spaces comes
    back with every word capitalised and one space between the words. *)
Theorem small_words_capitalized U text target_script :
  forallb small_or_space text = true ->
  is_roman_target target_script = true ->
  clean_transliteration U formatter text target_script
  = Ok (join (u " ") (map capitalized (split U text))).
Proof.
  intros Ht Hr. unfold clean_transliteration.
  destruct text as [|c r]; [reflexivity|].
  rewrite plain_not_indian by now apply small_or_space_plain.
  rewrite Hr.
  rewrite plain_clean_roman_text by now apply small_or_space_plain.
  rewrite _format_for_english_small by exact Ht.
  cbn [bind]. f_equal. rewrite u_space. f_equal.
  apply split_join. now apply capitalized_words.
Qed.

Lemma small_words_capitalized_witness :
  clean_transliteration Ucd.table formatter (u " namaste  india") "ITRANS"
  = Ok (join (u " ") (map capitalized (split Ucd.table (u " namaste  india"))))
  /\ join (u " ") (map capitalized (split Ucd.table (u " namaste  india")))
     = u "Namaste India".
Proof.
  split; [|vm_compute; reflexivity].
  apply (small_words_capitalized Ucd.table (u " namaste  india") "ITRANS").
  - vm_compute. reflexivity.
  - vm_compute. reflexivity.
Defined.
End EnglishFormatFacts.
